(** * A shallow embedding of [MessagePassingRPC/rpc_server.py]

    The server of the repository is a ZeroMQ REP endpoint driven by a
    small reactor: [Reactor.event_loop] polls, [Reactor.handle_message]
    receives one request, splits it on spaces, makes the upcall on the
    registered [ServerImpl] and sends one reply.

    The Python objects live in a store ([World]); methods are computations
    in a state monad whose outcomes record Python exceptions and blocking
    calls.  Strings are sequences of bytes, which is enough for splitting
    on the ASCII space.  The [print] diagnostics of the source are not
    modelled; the receives, the sends and the upcalls on the implementation
    object are recorded in a trace instead. *)

From Stdlib Require Import Ascii.
From Stdlib Require String.
From stdpp Require Import gmap strings list.

Local Open Scope list_scope.

(** ** Python strings *)

Module Str.

(** [s.split(sep)] for a separator of one character: the pieces between
    the occurrences of [sep], empty pieces included.  The result is never
    the empty list: [''.split(' ')] is [['']]. *)
Fixpoint split (sep : Ascii.ascii) (s : string) : list string :=
  match s with
  | EmptyString => [EmptyString]
  | String c s' =>
      if Ascii.eqb c sep then EmptyString :: split sep s'
      else match split sep s' with
           | [] => [String c EmptyString]
           | t :: ts => String c t :: ts
           end
  end.

(** [c in s] *)
Fixpoint contains (c : Ascii.ascii) (s : string) : bool :=
  match s with
  | EmptyString => false
  | String c' s' => Ascii.eqb c' c || contains c s'
  end.

Definition space : Ascii.ascii := Ascii.ascii_of_nat 32.

End Str.

(** ** Outcomes of a computation *)

(** The error numbers of ZeroMQ that the server can meet. *)
Inductive Errno :=
| EADDRINUSE   (* the address is taken or cannot be bound *)
| EFSM         (* receive or send out of turn on a REP socket *)
| ENOTSOCK.    (* the socket does not exist *)

(** The Python exceptions that can escape from the code of the server. *)
Inductive Exn :=
| IndexError                    (* list index out of range *)
| AttributeError                (* attribute access on [None] *)
| TypeError                     (* [None] where a socket is expected *)
| ZMQError (e : Errno)
| SystemExit (code : nat).      (* raised by [argparse] *)

(** A call returns, raises, blocks for ever in the transport, or is still
    running when the fuel of the model is spent. *)
Inductive Outcome (A : Type) :=
| Ret (a : A)
| Raise (e : Exn)
| Blocked
| OutOfFuel.
Arguments Ret {A} a.
Arguments Raise {A} e.
Arguments Blocked {A}.
Arguments OutOfFuel {A}.

(** ** The store *)

(** A ZeroMQ socket of type REP: the addresses it is bound to, the requests
    that arrived and were not received yet, whether a request was received
    and its reply is still due, and the replies sent so far. *)
Record Socket := mkSocket {
  endpoints : list string;
  inbox : list string;
  reply_due : bool;
  sent : list string
}.

(** [ServerImpl] objects: [self.port] and [self.socket] ([None] until
    [bind]). *)
Record ServerImplObj := mkServerImpl {
  port : string;
  socket : option nat
}.

(** [Reactor] objects.  [zmq.Context()] carries no state of its own in the
    model; [self.poller] is the list of the registered sockets, in the
    order of registration; [self.impl] is a reference or [None]. *)
Inductive Context := ZmqContext.

Record ReactorObj := mkReactor {
  context : Context;
  poller : list (option nat);
  impl : option nat
}.

(** What the process does that a peer or the implementation object can
    observe, in the order it happens. *)
Inductive Event :=
| EvRecv (s : nat) (msg : string)
| EvSend (s : nat) (msg : string)
| EvGet (self : nat) (key : string)
| EvPut (self : nat) (key value : string).

Record World := mkWorld {
  sockets : gmap nat Socket;
  impls : gmap nat ServerImplObj;
  reactors : gmap nat ReactorObj;
  unavailable : list string;     (* addresses that cannot be bound *)
  trace : list Event
}.

Definition set_socket (s : option nat) (o : ServerImplObj) : ServerImplObj :=
  mkServerImpl (port o) s.
Definition set_impl (i : option nat) (r : ReactorObj) : ReactorObj :=
  mkReactor (context r) (poller r) i.
Definition set_poller (f : list (option nat) → list (option nat)) (r : ReactorObj) : ReactorObj :=
  mkReactor (context r) (f (poller r)) (impl r).

Definition set_sockets (f : gmap nat Socket → gmap nat Socket) (w : World) : World :=
  mkWorld (f (sockets w)) (impls w) (reactors w) (unavailable w) (trace w).
Definition set_impls (f : gmap nat ServerImplObj → gmap nat ServerImplObj) (w : World) : World :=
  mkWorld (sockets w) (f (impls w)) (reactors w) (unavailable w) (trace w).
Definition set_reactors (f : gmap nat ReactorObj → gmap nat ReactorObj) (w : World) : World :=
  mkWorld (sockets w) (impls w) (f (reactors w)) (unavailable w) (trace w).
Definition log (e : Event) (w : World) : World :=
  mkWorld (sockets w) (impls w) (reactors w) (unavailable w) (trace w ++ [e]).

(** ** The monad *)

Definition M (A : Type) : Type := World → Outcome A * World.

Global Instance M_ret : MRet M := λ A a w, (Ret a, w).
Global Instance M_bind : MBind M := λ A B f m w,
  match m w with
  | (Ret a, w') => f a w'
  | (Raise e, w') => (Raise e, w')
  | (Blocked, w') => (Blocked, w')
  | (OutOfFuel, w') => (OutOfFuel, w')
  end.

Definition raise {A} (e : Exn) : M A := λ w, (Raise e, w).
Definition out_of_fuel {A} : M A := λ w, (OutOfFuel, w).
Definition modify (f : World → World) : M unit := λ w, (Ret tt, f w).

(** [l[i]] on a Python list. *)
Definition index {A} (l : list A) (i : nat) : M A :=
  match l !! i with
  | Some x => mret x
  | None => raise IndexError
  end.

(** The first key that a store does not use. *)
Definition alloc {A} (m : gmap nat A) : nat := fresh (dom m).

(** ** The transport

    ZeroMQ is outside the repository.  The model keeps what the server
    relies on: sockets of type REP are created, bound to an address, polled
    for a pending request, and alternate strictly between one receive and
    one send. *)

Module zmq.

Definition fresh_socket : Socket := mkSocket [] [] false [].

(** [context.socket (zmq.REP)] *)
Definition socket (ctx : Context) : M nat := λ w,
  let s := alloc (sockets w) in
  (Ret s, set_sockets <[s := fresh_socket]> w).

(** [socket.bind (addr)]: refused when the address is taken or invalid. *)
Definition bind (s : nat) (addr : string) : M unit := λ w,
  match sockets w !! s with
  | None => (Raise (ZMQError ENOTSOCK), w)
  | Some k =>
      if bool_decide (addr ∈ unavailable w) then (Raise (ZMQError EADDRINUSE), w)
      else (Ret tt,
            mkWorld (<[s := mkSocket (endpoints k ++ [addr]) (inbox k) (reply_due k) (sent k)]> (sockets w))
                    (impls w) (reactors w) (addr :: unavailable w) (trace w))
  end.

(** [socket.recv_string ()]: the oldest pending request; blocks while
    there is none. *)
Definition recv_string (s : nat) : M string := λ w,
  match sockets w !! s with
  | None => (Raise (ZMQError ENOTSOCK), w)
  | Some k =>
      if reply_due k then (Raise (ZMQError EFSM), w)
      else match inbox k with
           | [] => (Blocked, w)
           | msg :: rest =>
               (Ret msg,
                log (EvRecv s msg)
                  (set_sockets <[s := mkSocket (endpoints k) rest true (sent k)]> w))
           end
  end.

(** [socket.send_string (msg)]: the reply to the request received last. *)
Definition send_string (s : nat) (msg : string) : M unit := λ w,
  match sockets w !! s with
  | None => (Raise (ZMQError ENOTSOCK), w)
  | Some k =>
      if reply_due k then
        (Ret tt,
         log (EvSend s msg)
           (set_sockets <[s := mkSocket (endpoints k) (inbox k) false (sent k ++ [msg])]> w))
      else (Raise (ZMQError EFSM), w)
  end.

(** A socket shows [POLLIN] when a request is pending and it is its turn
    to receive. *)
Definition readable (w : World) (s : nat) : bool :=
  match sockets w !! s with
  | Some k => negb (reply_due k) && negb (bool_decide (inbox k = []))
  | None => false
  end.

(** [poller.register (socket, zmq.POLLIN)]: a socket is entered once. *)
Definition register (poller : list (option nat)) (s : option nat) : list (option nat) :=
  if bool_decide (s ∈ poller) then poller else poller ++ [s].

Fixpoint all_sockets (poller : list (option nat)) : option (list nat) :=
  match poller with
  | [] => Some []
  | None :: _ => None
  | Some s :: rest => (s ::.) <$> all_sockets rest
  end.

(** [dict (poller.poll ())]: the registered sockets that are readable;
    blocks while there is none. *)
Definition poll (poller : list (option nat)) : M (list nat) := λ w,
  match all_sockets poller with
  | None => (Raise TypeError, w)
  | Some ss =>
      match filter (λ s, readable w s = true) ss with
      | [] => (Blocked, w)
      | ready => (Ret ready, w)
      end
  end.

(** A peer's request reaches the socket (a step of the environment). *)
Definition deliver (s : nat) (msg : string) (w : World) : World :=
  set_sockets (alter (λ k, mkSocket (endpoints k) (inbox k ++ [msg]) (reply_due k) (sent k)) s) w.

End zmq.

(** ** The command line

    [argparse] is outside the repository.  The model follows the parser of
    CPython for a parser that declares only optional arguments taking one
    value each, next to the [-h]/[--help] that every parser has: option
    strings spelled in full or abbreviated, [--opt=value] and [-ovalue],
    the [--] separator, and the exit statuses 0 (help) and 2 (error).
    Short options glued to [-h] (as in [-hp1]) are taken as errors. *)

Module argparse.

Record Argument := mkArgument {
  option_strings : list string;
  dest : string;
  default : string
}.

(** The arguments added so far. *)
Definition ArgumentParser := list Argument.

(** The attributes of the parsed arguments, by name. *)
Abbreviation Namespace := (gmap string string).

Inductive Action :=
| Help
| Store (a : Argument).

Fixpoint strip_dashes (s : string) : string :=
  match s with
  | String c s' => if Ascii.eqb c "-"%char then strip_dashes s' else s
  | EmptyString => s
  end.

(** [parser.add_argument (short, long, default=d)]: the attribute is
    named after the long option. *)
Definition add_argument (parser : ArgumentParser) (short long d : string) : ArgumentParser :=
  parser ++ [mkArgument [short; long] (strip_dashes long) d].

(** The option strings of the parser with their actions. *)
Definition option_string_actions (parser : ArgumentParser) : list (string * Action) :=
  [("-h", Help); ("--help", Help)] ++
  flat_map (λ a, map (λ o, (o, Store a)) (option_strings a)) parser.

Definition lookup_exact (parser : ArgumentParser) (tok : string) : option Action :=
  snd <$> find (λ p, String.eqb (fst p) tok) (option_string_actions parser).

(** The part before the first [c] and, when [c] occurs, the part after. *)
Fixpoint split1 (c : Ascii.ascii) (s : string) : string * option string :=
  match s with
  | EmptyString => (EmptyString, None)
  | String c' s' =>
      if Ascii.eqb c' c then (EmptyString, Some s')
      else let '(a, b) := split1 c s' in (String c' a, b)
  end.

Definition is_digit (c : Ascii.ascii) : bool :=
  let n := Ascii.nat_of_ascii c in (48 <=? n) && (n <=? 57).

Fixpoint all_digits (s : string) : bool :=
  match s with
  | EmptyString => true
  | String c s' => is_digit c && all_digits s'
  end.

(** [-\d+] or [-\d*\.\d+] *)
Definition negative_number (tok : string) : bool :=
  match tok with
  | String c body =>
      Ascii.eqb c "-"%char &&
      match split1 "."%char body with
      | (ds, None) => negb (String.eqb ds "") && all_digits ds
      | (ds, Some fs) => all_digits ds && negb (String.eqb fs "") && all_digits fs
      end
  | EmptyString => false
  end.

Inductive Token :=
| Positional
| Optional (a : Action) (explicit_arg : option string)
| Ambiguous
| Unknown.

(** The actions that an abbreviated or glued option string can stand
    for. *)
Definition option_tuples (parser : ArgumentParser) (tok : string)
  : list (Action * option string) :=
  match tok with
  | String _ (String c2 glued) =>
      if Ascii.eqb c2 "-"%char then
        let '(option_prefix, explicit_arg) := split1 "="%char tok in
        omap (λ p, if String.prefix option_prefix (fst p)
                   then Some (snd p, explicit_arg) else None)
             (option_string_actions parser)
      else
        omap (λ p, if String.eqb (fst p) (String "-"%char (String c2 EmptyString))
                   then Some (snd p, Some glued)
                   else if String.prefix tok (fst p) then Some (snd p, None)
                   else None)
             (option_string_actions parser)
  | _ => []
  end.

Definition parse_optional (parser : ArgumentParser) (tok : string) : Token :=
  match tok with
  | EmptyString => Positional
  | String c rest =>
      if negb (Ascii.eqb c "-"%char) then Positional
      else match lookup_exact parser tok with
      | Some a => Optional a None
      | None =>
          if String.eqb rest "" then Positional
          else match split1 "="%char tok with
          | (o, Some e) =>
              match lookup_exact parser o with
              | Some a => Optional a (Some e)
              | None =>
                  match option_tuples parser tok with
                  | [] => if negative_number tok then Positional
                          else if Str.contains Str.space tok then Positional
                          else Unknown
                  | [(a, e')] => Optional a e'
                  | _ => Ambiguous
                  end
              end
          | (_, None) =>
              match option_tuples parser tok with
              | [] => if negative_number tok then Positional
                      else if Str.contains Str.space tok then Positional
                      else Unknown
              | [(a, e')] => Optional a e'
              | _ => Ambiguous
              end
          end
      end
  end.

Definition is_ambiguous (parser : ArgumentParser) (tok : string) : bool :=
  match parse_optional parser tok with
  | Ambiguous => true
  | _ => false
  end.

Definition is_positional (parser : ArgumentParser) (tok : string) : bool :=
  match parse_optional parser tok with
  | Positional => true
  | _ => false
  end.

(** The tokens before the first [--]. *)
Fixpoint before_separator (argv : list string) : list string :=
  match argv with
  | [] => []
  | tok :: rest => if String.eqb tok "--" then [] else tok :: before_separator rest
  end.

(** The actions are run from left to right.  A token that is no option
    of the parser is an error once the whole line is read, since the
    parser declares no positional argument; so is [--] with what follows
    it, unless it stands next to the value of an option. *)
Fixpoint consume (parser : ArgumentParser) (argv : list string)
    (ns : Namespace) (extras : bool) : Exn + Namespace :=
  match argv with
  | [] => if extras then inl (SystemExit 2) else inr ns
  | tok :: rest =>
      if String.eqb tok "--" then inl (SystemExit 2)
      else match parse_optional parser tok with
      | Positional | Unknown => consume parser rest ns true
      | Ambiguous => inl (SystemExit 2)
      | Optional Help None => inl (SystemExit 0)
      | Optional Help (Some _) => inl (SystemExit 2)
      | Optional (Store a) (Some v) => consume parser rest (<[dest a := v]> ns) extras
      | Optional (Store a) None =>
          match rest with
          | v :: rest' =>
              if String.eqb v "--" then
                match rest' with
                | [v'] => if extras then inl (SystemExit 2) else inr (<[dest a := v']> ns)
                | _ => inl (SystemExit 2)
                end
              else if is_positional parser v then
                match rest' with
                | [sep] =>
                    if String.eqb sep "--"
                    then (if extras then inl (SystemExit 2) else inr (<[dest a := v]> ns))
                    else consume parser rest' (<[dest a := v]> ns) extras
                | _ => consume parser rest' (<[dest a := v]> ns) extras
                end
              else inl (SystemExit 2)
          | [] => inl (SystemExit 2)
          end
      end
  end.

Definition defaults (parser : ArgumentParser) : Namespace :=
  foldl (λ ns a, <[dest a := default a]> ns) ∅ parser.

(** [parser.parse_args ()] on the arguments of the command line. *)
Definition parse_args (parser : ArgumentParser) (argv : list string) : M Namespace :=
  if existsb (is_ambiguous parser) (before_separator argv) then raise (SystemExit 2)
  else match consume parser argv (defaults parser) false with
       | inl e => raise e
       | inr ns => mret ns
       end.

(** [args.name] *)
Definition attr (args : Namespace) (name : string) : M string :=
  match args !! name with
  | Some v => mret v
  | None => raise AttributeError
  end.

End argparse.

(** ** [class ServerImpl] *)

Module ServerImpl.

(** [self.port] and [self.socket] of a live object. *)
Definition deref (self : nat) : M ServerImplObj := λ w,
  match impls w !! self with
  | Some o => (Ret o, w)
  | None => (Raise AttributeError, w)
  end.

Definition new (o : ServerImplObj) : M nat := λ w,
  let self := alloc (impls w) in
  (Ret self, set_impls <[self := o]> w).

(** [ServerImpl (args)] *)
Definition __init__ (args : argparse.Namespace) : M nat :=
  p ← argparse.attr args "port";
  new (mkServerImpl p None).

Definition bind (self : nat) (context : Context) : M unit :=
  s ← zmq.socket context;
  modify (set_impls (alter (set_socket (Some s)) self));;
  o ← deref self;
  let bind_str := "tcp://*:" +:+ port o in
  zmq.bind s bind_str.

Definition get (self : nat) (key : string) : M string :=
  modify (log (EvGet self key));;
  mret key.

Definition put (self : nat) (key value : string) : M string :=
  modify (log (EvPut self key value));;
  mret "ACK".

End ServerImpl.

(** ** [class Reactor] *)

Module Reactor.

Definition deref (self : nat) : M ReactorObj := λ w,
  match reactors w !! self with
  | Some r => (Ret r, w)
  | None => (Raise AttributeError, w)
  end.

(** [self.impl], for a method call or an attribute access on it. *)
Definition the_impl (self : nat) : M nat :=
  r ← deref self;
  match impl r with
  | Some i => mret i
  | None => raise AttributeError
  end.

(** [Reactor ()] *)
Definition __init__ : M nat := λ w,
  let self := alloc (reactors w) in
  (Ret self, set_reactors <[self := mkReactor ZmqContext [] None]> w).

Definition register (self : nat) (impl : nat) : M unit :=
  modify (set_reactors (alter (set_impl (Some impl)) self));;
  o ← ServerImpl.deref impl;
  modify (set_reactors (alter (set_poller (λ p, zmq.register p (socket o))) self)).

Definition handle_message (self : nat) (socket : nat) : M unit :=
  str ← zmq.recv_string socket;
  let parts := Str.split Str.space str in
  verb ← index parts 0;
  if String.eqb verb "GET" then
    i ← the_impl self;
    key ← index parts 1;
    ret ← ServerImpl.get i key;
    zmq.send_string socket ret
  else
    verb ← index parts 0;
    if String.eqb verb "PUT" then
      i ← the_impl self;
      key ← index parts 1;
      value ← index parts 2;
      _ ← ServerImpl.put i key value;
      zmq.send_string socket "ack"
    else
      zmq.send_string socket "Sorry, unrecognized command".

(** [while True]: one turn of the loop for each unit of fuel. *)
Fixpoint event_loop (fuel : nat) (self : nat) : M unit :=
  match fuel with
  | O => out_of_fuel
  | S fuel' =>
      r ← deref self;
      events ← zmq.poll (poller r);
      i ← the_impl self;
      o ← ServerImpl.deref i;
      match socket o with
      | Some s =>
          if bool_decide (s ∈ events) then
            i ← the_impl self;
            o ← ServerImpl.deref i;
            match socket o with
            | Some s' => handle_message self s'
            | None => raise AttributeError
            end
          else mret tt
      | None => mret tt
      end;;
      event_loop fuel' self
  end.

End Reactor.

(** ** The program *)

(** The arguments of the command line are [sys.argv[1:]]. *)
Definition parseCmdLineArgs (argv : list string) : M argparse.Namespace :=
  let parser : argparse.ArgumentParser := [] in
  let parser := argparse.add_argument parser "-p" "--port" "5557" in
  argparse.parse_args parser argv.

Definition main (fuel : nat) (argv : list string) : M unit :=
  args ← parseCmdLineArgs argv;
  reactor ← Reactor.__init__;
  impl ← ServerImpl.__init__ args;
  r ← Reactor.deref reactor;
  ServerImpl.bind impl (context r);;
  Reactor.register reactor impl;;
  Reactor.event_loop fuel reactor.

(** The world before the process starts. *)
Definition boot (unavailable : list string) : World := mkWorld ∅ ∅ ∅ unavailable [].

(** The replies that a socket has sent. *)
Definition replies (w : World) (s : nat) : list string :=
  match sockets w !! s with
  | Some k => sent k
  | None => []
  end.

(** The upcalls on implementation objects in a trace. *)
Definition is_upcall (e : Event) : bool :=
  match e with
  | EvGet _ _ | EvPut _ _ _ => true
  | _ => false
  end.

Definition upcalls (t : list Event) : list Event := filter (λ e, is_upcall e = true) t.

(** The request that [socket.recv_string ()] would return now. *)
Definition next_request (w : World) (s : nat) : option string :=
  match sockets w !! s with
  | Some k => if reply_due k then None else head (inbox k)
  | None => None
  end.

(** [self.impl] of a reactor, when it has one. *)
Definition registered_impl (w : World) (self : nat) : option nat :=
  r ← reactors w !! self; impl r.

(** The server started with no argument on a machine where every address
    is free, waiting in [poll] for its first request. *)
Definition started : World := snd (main 1 [] (boot [])).

(** The world once socket [s], in state [k], has handed over the request
    [msg] and keeps the requests [rest]. *)
Definition received (w : World) (s : nat) (k : Socket) (msg : string)
    (rest : list string) : World :=
  mkWorld (<[s := mkSocket (endpoints k) rest true (sent k)]> (sockets w))
          (impls w) (reactors w) (unavailable w) (trace w ++ [EvRecv s msg]).

(** The world once the reply to that request is sent, after the upcalls
    [calls]. *)
Definition replied (w : World) (s : nat) (k : Socket) (msg : string)
    (rest : list string) (calls : list Event) (reply : string) : World :=
  mkWorld (<[s := mkSocket (endpoints k) rest false (sent k ++ [reply])]> (sockets w))
          (impls w) (reactors w) (unavailable w)
          (trace w ++ EvRecv s msg :: calls ++ [EvSend s reply]).

(** ** Observations used in the statements *)

(** What a request that is answered leaves behind: the call returns, one
    reply is appended to those of the socket, and the trace grows by the
    receive, the upcalls and the send. *)
Definition answered (w : World) (s : nat) (msg : string) (calls : list Event)
    (reply : string) (r : Outcome unit * World) : Prop :=
  fst r = Ret tt ∧
  replies (snd r) s = replies w s ++ [reply] ∧
  trace (snd r) = trace w ++ EvRecv s msg :: calls ++ [EvSend s reply].

Definition upcall_target (e : Event) : option nat :=
  match e with
  | EvGet i _ | EvPut i _ _ => Some i
  | _ => None
  end.

(** The events of [w'] that [w] does not have yet. *)
Definition since (w w' : World) : list Event := drop (length (trace w)) (trace w').

(** All upcalls among the events go to the object [i]. *)
Definition upcalls_on (i : nat) (t : list Event) : Prop :=
  Forall (λ e, is_upcall e = true → upcall_target e = Some i) t.

(** A process with one reactor (0) and two bound implementation objects
    (0 on port 6000, 1 on port 6001), none registered yet. *)
Definition two_impls : World :=
  snd ((args1 ← parseCmdLineArgs ["-p"; "6000"];
        args2 ← parseCmdLineArgs ["--port=6001"];
        reactor ← Reactor.__init__;
        h1 ← ServerImpl.__init__ args1;
        h2 ← ServerImpl.__init__ args2;
        ServerImpl.bind h1 ZmqContext;;
        ServerImpl.bind h2 ZmqContext) (boot [])).

(** The reply that the branches of [handle_message] send for a list of
    tokens; [None] where an index is out of range. *)
Definition reply_of (parts : list string) : option string :=
  match parts with
  | [] => None
  | verb :: args =>
      if String.eqb verb "GET" then args !! 0
      else if String.eqb verb "PUT" then
        match args with
        | _ :: _ :: _ => Some "ack"
        | _ => None
        end
      else Some "Sorry, unrecognized command"
  end.

(** The server as [main] leaves it: reactor [self] polls the one socket
    [s], which belongs to the registered object [i]. *)
Definition serving (w : World) (self i s : nat) : Prop :=
  (∃ r, reactors w !! self = Some r ∧ impl r = Some i ∧ poller r = [Some s])
  ∧ (∃ o, impls w !! i = Some o ∧ socket o = Some s).

(** The receives and sends of a trace, in order. *)
Definition is_transfer (e : Event) : bool :=
  match e with
  | EvRecv _ _ | EvSend _ _ => true
  | _ => false
  end.

Definition transfers (t : list Event) : list Event := filter (λ e, is_transfer e = true) t.

(** One receive and then one send for each request and its reply. *)
Fixpoint alternation (s : nat) (msgs replies : list string) : list Event :=
  match msgs, replies with
  | msg :: msgs', reply :: replies' =>
      EvRecv s msg :: EvSend s reply :: alternation s msgs' replies'
  | _, _ => []
  end.

(** The reactor and the object that an event belongs to: a receive or a
    send on socket [s], or an upcall on object [i]. *)
Definition event_of (i s : nat) (e : Event) : Prop :=
  match e with
  | EvRecv s' _ | EvSend s' _ => s' = s
  | EvGet i' _ | EvPut i' _ _ => i' = i
  end.

(** [w'] differs from [w] at most in the queue, the turn and the replies
    of socket [s], and in a longer trace. *)
Definition only_socket (s : nat) (w w' : World) : Prop :=
  impls w' = impls w
  ∧ reactors w' = reactors w
  ∧ unavailable w' = unavailable w
  ∧ (∀ s', s' ≠ s → sockets w' !! s' = sockets w !! s')
  ∧ endpoints <$> sockets w' !! s = endpoints <$> sockets w !! s
  ∧ ∃ new, trace w' = trace w ++ new.

(** A computation whose final world is related to its initial world,
    however it ends. *)
Definition preserves {A} (R : World → World → Prop) (m : M A) : Prop :=
  ∀ w, R w (snd (m w)).

(** A value of the command line that does not begin with a dash. *)
Definition plain (v : string) : bool :=
  match v with
  | EmptyString => true
  | String c _ => negb (Ascii.eqb c "-"%char)
  end.

(** * Properties *)

(** ** Splitting *)

Lemma split_nonempty sep s : Str.split sep s ≠ [].
Proof.
  destruct s as [|c s]; simpl; [discriminate|].
  destruct (Ascii.eqb c sep); [discriminate|].
  destruct (Str.split sep s); discriminate.
Qed.

Lemma split_no_sep sep s : Str.contains sep s = false → Str.split sep s = [s].
Proof.
  induction s as [|c s IH]; simpl; [reflexivity|].
  intros [Hc Hs]%orb_false_iff. rewrite Hc, (IH Hs). reflexivity.
Qed.

Lemma split_app_sep sep a b :
  Str.contains sep a = false →
  Str.split sep (a +:+ String sep b) = a :: Str.split sep b.
Proof.
  induction a as [|c a IH]; simpl.
  - intros _. rewrite Ascii.eqb_refl. reflexivity.
  - intros [Hc Ha]%orb_false_iff. rewrite Hc, (IH Ha). reflexivity.
Qed.

(** ** One request *)

Section HandleMessage.

Variables (w : World) (self s : nat) (k : Socket) (msg : string) (rest : list string).
Hypothesis Hsock : sockets w !! s = Some k.
Hypothesis Hturn : reply_due k = false.
Hypothesis Hinbox : inbox k = msg :: rest.

Lemma recv_string_run : zmq.recv_string s w = (Ret msg, received w s k msg rest).
Proof. unfold zmq.recv_string. rewrite Hsock, Hturn, Hinbox. reflexivity. Qed.

Lemma send_after_recv calls reply :
  zmq.send_string s reply
    (mkWorld (sockets (received w s k msg rest)) (impls w) (reactors w) (unavailable w)
             (trace (received w s k msg rest) ++ calls))
  = (Ret tt, replied w s k msg rest calls reply).
Proof.
  unfold zmq.send_string, received, replied, log, set_sockets; simpl.
  rewrite lookup_insert_eq; simpl. rewrite insert_insert_eq.
  rewrite <- !app_assoc. reflexivity.
Qed.

Lemma send_received reply :
  zmq.send_string s reply (received w s k msg rest)
  = (Ret tt, replied w s k msg rest [] reply).
Proof.
  unfold zmq.send_string, received, replied, log, set_sockets; simpl.
  rewrite lookup_insert_eq; simpl. rewrite insert_insert_eq.
  rewrite <- !app_assoc. reflexivity.
Qed.

Lemma the_impl_run i (w' : World) :
  registered_impl w self = Some i → reactors w' = reactors w →
  Reactor.the_impl self w' = (Ret i, w').
Proof.
  unfold registered_impl, Reactor.the_impl, Reactor.deref, mbind, M_bind.
  intros Hi ->. destruct (reactors w !! self) as [r|]; simpl in *; [|discriminate].
  rewrite Hi. reflexivity.
Qed.

Ltac run_handle_message :=
  unfold Reactor.handle_message, mbind, M_bind;
  rewrite recv_string_run;
  repeat match goal with H : Str.split _ _ = _ |- _ => rewrite H end;
  simpl.

Lemma handle_message_get i key extra :
  registered_impl w self = Some i →
  Str.split Str.space msg = "GET" :: key :: extra →
  Reactor.handle_message self s w = (Ret tt, replied w s k msg rest [EvGet i key] key).
Proof.
  intros Hi Hparts. run_handle_message.
  rewrite (the_impl_run i (received w s k msg rest) Hi eq_refl).
  apply (send_after_recv [EvGet i key] key).
Qed.

Lemma handle_message_put i key value extra :
  registered_impl w self = Some i →
  Str.split Str.space msg = "PUT" :: key :: value :: extra →
  Reactor.handle_message self s w
  = (Ret tt, replied w s k msg rest [EvPut i key value] "ack").
Proof.
  intros Hi Hparts. run_handle_message.
  rewrite (the_impl_run i (received w s k msg rest) Hi eq_refl).
  apply (send_after_recv [EvPut i key value] "ack").
Qed.

Lemma handle_message_other verb args :
  Str.split Str.space msg = verb :: args →
  verb ≠ "GET" → verb ≠ "PUT" →
  Reactor.handle_message self s w
  = (Ret tt, replied w s k msg rest [] "Sorry, unrecognized command").
Proof.
  intros Hparts Hget%String.eqb_neq Hput%String.eqb_neq. run_handle_message.
  rewrite Hget, Hput.
  apply send_received.
Qed.

(** A [GET] without a key stops at [parts[1]], a [PUT] without a key at
    [parts[1]] and a [PUT] without a value at [parts[2]]: the request is
    consumed and no reply is sent. *)
Lemma handle_message_get_short i :
  registered_impl w self = Some i →
  Str.split Str.space msg = ["GET"] →
  Reactor.handle_message self s w = (Raise IndexError, received w s k msg rest).
Proof.
  intros Hi Hparts. run_handle_message.
  rewrite (the_impl_run i (received w s k msg rest) Hi eq_refl).
  reflexivity.
Qed.

Lemma handle_message_put_short i args :
  registered_impl w self = Some i →
  Str.split Str.space msg = "PUT" :: args →
  length args < 2 →
  Reactor.handle_message self s w = (Raise IndexError, received w s k msg rest).
Proof.
  intros Hi Hparts Hlen. run_handle_message.
  rewrite (the_impl_run i (received w s k msg rest) Hi eq_refl).
  destruct args as [|key [|value args]]; simpl in *; [reflexivity..|lia].
Qed.

End HandleMessage.

Lemma next_request_inv w s msg :
  next_request w s = Some msg →
  ∃ k rest, sockets w !! s = Some k ∧ reply_due k = false ∧ inbox k = msg :: rest.
Proof.
  unfold next_request. destruct (sockets w !! s) as [k|]; [|discriminate].
  destruct (reply_due k) eqn:Hturn; [discriminate|].
  destruct (inbox k) as [|m rest] eqn:Hinbox; simpl; [discriminate|].
  intros [= ->]. eauto.
Qed.

Lemma replies_replied w s k msg rest calls reply :
  sockets w !! s = Some k →
  replies (replied w s k msg rest calls reply) s = replies w s ++ [reply].
Proof.
  intros Hsock. unfold replies, replied; simpl.
  rewrite lookup_insert_eq, Hsock. reflexivity.
Qed.

Lemma upcalls_app t1 t2 : upcalls (t1 ++ t2) = upcalls t1 ++ upcalls t2.
Proof. apply filter_app. Qed.

Lemma answered_replied w s k msg rest calls reply :
  sockets w !! s = Some k →
  answered w s msg calls reply (Ret tt, replied w s k msg rest calls reply).
Proof.
  intros Hsock. split; [reflexivity|]. split; [|reflexivity].
  simpl. by apply replies_replied.
Qed.

Lemma answered_get w self s i msg key extra :
  registered_impl w self = Some i →
  next_request w s = Some msg →
  Str.split Str.space msg = "GET" :: key :: extra →
  answered w s msg [EvGet i key] key (Reactor.handle_message self s w).
Proof.
  intros Hi (k & rest & Hsock & Hturn & Hinbox)%next_request_inv Hparts.
  rewrite (handle_message_get w self s k msg rest Hsock Hturn Hinbox i key extra Hi Hparts).
  by apply answered_replied.
Qed.

Lemma answered_put w self s i msg key value extra :
  registered_impl w self = Some i →
  next_request w s = Some msg →
  Str.split Str.space msg = "PUT" :: key :: value :: extra →
  answered w s msg [EvPut i key value] "ack" (Reactor.handle_message self s w).
Proof.
  intros Hi (k & rest & Hsock & Hturn & Hinbox)%next_request_inv Hparts.
  rewrite (handle_message_put w self s k msg rest Hsock Hturn Hinbox i key value extra Hi Hparts).
  by apply answered_replied.
Qed.

Lemma answered_other w self s msg verb :
  next_request w s = Some msg →
  Str.split Str.space msg !! 0 = Some verb →
  verb ≠ "GET" → verb ≠ "PUT" →
  answered w s msg [] "Sorry, unrecognized command" (Reactor.handle_message self s w).
Proof.
  intros (k & rest & Hsock & Hturn & Hinbox)%next_request_inv Hverb Hget Hput.
  destruct (Str.split Str.space msg) as [|verb' args] eqn:Hparts; [discriminate|].
  injection Hverb as ->.
  rewrite (handle_message_other w self s k msg rest Hsock Hturn Hinbox verb args Hparts Hget Hput).
  by apply answered_replied.
Qed.

Lemma split_get key :
  Str.contains Str.space key = false →
  Str.split Str.space ("GET " +:+ key) = ["GET"; key].
Proof.
  intros Hkey. change ("GET " +:+ key) with ("GET" +:+ String Str.space key).
  rewrite split_app_sep by reflexivity. by rewrite split_no_sep.
Qed.

Lemma split_put key value :
  Str.contains Str.space key = false →
  Str.contains Str.space value = false →
  Str.split Str.space ("PUT " +:+ key +:+ " " +:+ value) = ["PUT"; key; value].
Proof.
  intros Hkey Hvalue.
  change ("PUT " +:+ key +:+ " " +:+ value)
    with ("PUT" +:+ String Str.space (key +:+ String Str.space value)).
  rewrite split_app_sep by reflexivity.
  rewrite split_app_sep by assumption. by rewrite split_no_sep.
Qed.

(** ** The replies of the wire protocol *)

(** C2: for every request ["GET <key>"] whose key holds no space,
    [handle_message] returns after sending exactly the key as the reply;
    the reply is what [ServerImpl.get] returns, and [get] returns its
    argument unchanged. *)
Theorem get_replies_key (w : World) (self s i : nat) (key : string) :
  registered_impl w self = Some i →
  Str.contains Str.space key = false →
  next_request w s = Some ("GET " +:+ key) →
  answered w s ("GET " +:+ key) [EvGet i key] key (Reactor.handle_message self s w)
  ∧ ∀ w0, fst (ServerImpl.get i key w0) = Ret key.
Proof.
  intros Hi Hkey Hnext. split; [|reflexivity].
  eapply answered_get; eauto using split_get.
Qed.

Lemma get_replies_key_witness :
  answered (zmq.deliver 0 "GET hello" started) 0 "GET hello" [EvGet 0 "hello"] "hello"
    (Reactor.handle_message 0 0 (zmq.deliver 0 "GET hello" started))
  ∧ ∀ w0, fst (ServerImpl.get 0 "hello" w0) = Ret "hello".
Proof.
  apply (get_replies_key (zmq.deliver 0 "GET hello" started) 0 0 0 "hello");
    vm_compute; reflexivity.
Defined.

(** C3: for every request ["PUT <key> <value>"] whose key and value hold
    no space, [handle_message] makes the upcall [put (key, value)] and
    sends the reply ["ack"]; [ServerImpl.put] returns ["ACK"], which is
    another string and is not sent. *)
Theorem put_replies_ack (w : World) (self s i : nat) (key value : string) :
  registered_impl w self = Some i →
  Str.contains Str.space key = false →
  Str.contains Str.space value = false →
  next_request w s = Some ("PUT " +:+ key +:+ " " +:+ value) →
  answered w s ("PUT " +:+ key +:+ " " +:+ value) [EvPut i key value] "ack"
    (Reactor.handle_message self s w)
  ∧ (∀ w0, fst (ServerImpl.put i key value w0) = Ret "ACK")
  ∧ (∀ t, trace (snd (Reactor.handle_message self s w)) = trace w ++ t →
          EvSend s "ACK" ∉ t).
Proof.
  intros Hi Hkey Hvalue Hnext.
  assert (Hans : answered w s ("PUT " +:+ key +:+ " " +:+ value) [EvPut i key value] "ack"
                   (Reactor.handle_message self s w))
    by (eapply answered_put; eauto using split_put).
  split; [exact Hans|]. split; [reflexivity|].
  destruct Hans as (_ & _ & ->). intros t <-%app_inv_head. simpl.
  rewrite !elem_of_cons, elem_of_nil. intros [[=]|[[=]|[[=]|[]]]].
Qed.

Lemma put_replies_ack_witness :
  answered (zmq.deliver 0 "PUT foo bar" started) 0 "PUT foo bar" [EvPut 0 "foo" "bar"] "ack"
    (Reactor.handle_message 0 0 (zmq.deliver 0 "PUT foo bar" started))
  ∧ (∀ w0, fst (ServerImpl.put 0 "foo" "bar" w0) = Ret "ACK")
  ∧ (∀ t, trace (snd (Reactor.handle_message 0 0 (zmq.deliver 0 "PUT foo bar" started)))
          = trace (zmq.deliver 0 "PUT foo bar" started) ++ t →
          EvSend 0 "ACK" ∉ t).
Proof.
  apply (put_replies_ack (zmq.deliver 0 "PUT foo bar" started) 0 0 0 "foo" "bar");
    vm_compute; reflexivity.
Defined.

(** C4: for every request whose first token is neither ["GET"] nor
    ["PUT"], [handle_message] sends exactly the reply
    ["Sorry, unrecognized command"] and makes no upcall: between the
    receive and the send the trace holds nothing. *)
Theorem unknown_verb_replies_sorry (w : World) (self s : nat) (msg verb : string) :
  next_request w s = Some msg →
  Str.split Str.space msg !! 0 = Some verb →
  verb ≠ "GET" → verb ≠ "PUT" →
  answered w s msg [] "Sorry, unrecognized command" (Reactor.handle_message self s w)
  ∧ upcalls (trace (snd (Reactor.handle_message self s w))) = upcalls (trace w).
Proof.
  intros Hnext Hverb Hget Hput.
  assert (Hans := answered_other w self s msg verb Hnext Hverb Hget Hput).
  split; [exact Hans|]. destruct Hans as (_ & _ & ->).
  rewrite upcalls_app. simpl. apply app_nil_r.
Qed.

Lemma unknown_verb_replies_sorry_witness :
  answered (zmq.deliver 0 "DELETE foo" started) 0 "DELETE foo" []
    "Sorry, unrecognized command"
    (Reactor.handle_message 0 0 (zmq.deliver 0 "DELETE foo" started))
  ∧ upcalls (trace (snd (Reactor.handle_message 0 0 (zmq.deliver 0 "DELETE foo" started))))
    = upcalls (trace (zmq.deliver 0 "DELETE foo" started)).
Proof.
  apply (unknown_verb_replies_sorry (zmq.deliver 0 "DELETE foo" started) 0 0
           "DELETE foo" "DELETE"); [vm_compute; reflexivity..|discriminate|discriminate].
Defined.

(** C9: the empty message does not make [handle_message] fault: splitting
    [""] on a space gives the list [[""]], so [parts[0]] is defined, and
    the reply ["Sorry, unrecognized command"] is sent; the same holds for
    the lowercase verbs ["get"] and ["put"] and for every first token that
    is neither ["GET"] nor ["PUT"]. *)
Theorem empty_message_replies_sorry (w : World) (self s : nat) (msg verb : string) :
  next_request w s = Some msg →
  Str.split Str.space msg !! 0 = Some verb →
  msg = "" ∨ verb = "get" ∨ verb = "put" ∨ (verb ≠ "GET" ∧ verb ≠ "PUT") →
  Str.split Str.space "" = [""]
  ∧ answered w s msg [] "Sorry, unrecognized command" (Reactor.handle_message self s w).
Proof.
  intros Hnext Hverb Hcase. split; [reflexivity|].
  apply (answered_other w self s msg verb Hnext Hverb).
  - destruct Hcase as [->|[->|[->|[H _]]]]; [|discriminate..|exact H].
    injection Hverb as <-. discriminate.
  - destruct Hcase as [->|[->|[->|[_ H]]]]; [|discriminate..|exact H].
    injection Hverb as <-. discriminate.
Qed.

Lemma empty_message_replies_sorry_witness :
  Str.split Str.space "" = [""]
  ∧ answered (zmq.deliver 0 "" started) 0 "" [] "Sorry, unrecognized command"
      (Reactor.handle_message 0 0 (zmq.deliver 0 "" started)).
Proof.
  apply (empty_message_replies_sorry (zmq.deliver 0 "" started) 0 0 "" "");
    [vm_compute; reflexivity..|left; reflexivity].
Defined.

(** C10: the tokens that follow the expected ones are ignored.  When the
    first token is ["GET"] and a second token exists, the reply is the
    second token whatever follows it; when the first token is ["PUT"] and
    a second and a third token exist, the reply is ["ack"] and [put] is
    called once, with the second and the third token. *)
Theorem trailing_tokens_ignored (w : World) (self s i : nat) (msg : string) :
  registered_impl w self = Some i →
  next_request w s = Some msg →
  (∀ key extra,
     Str.split Str.space msg = "GET" :: key :: extra →
     answered w s msg [EvGet i key] key (Reactor.handle_message self s w))
  ∧ (∀ key value extra,
       Str.split Str.space msg = "PUT" :: key :: value :: extra →
       answered w s msg [EvPut i key value] "ack" (Reactor.handle_message self s w)).
Proof.
  intros Hi Hnext. split.
  - intros key extra Hparts. by eapply answered_get.
  - intros key value extra Hparts. by eapply answered_put.
Qed.

Lemma trailing_tokens_ignored_witness :
  answered (zmq.deliver 0 "GET a b" started) 0 "GET a b" [EvGet 0 "a"] "a"
    (Reactor.handle_message 0 0 (zmq.deliver 0 "GET a b" started))
  ∧ answered (zmq.deliver 0 "PUT a b c d" started) 0 "PUT a b c d" [EvPut 0 "a" "b"] "ack"
      (Reactor.handle_message 0 0 (zmq.deliver 0 "PUT a b c d" started)).
Proof.
  split.
  - apply (proj1 (trailing_tokens_ignored (zmq.deliver 0 "GET a b" started) 0 0 0 "GET a b"
                    eq_refl eq_refl) "a" ["b"]).
    reflexivity.
  - apply (proj2 (trailing_tokens_ignored (zmq.deliver 0 "PUT a b c d" started) 0 0 0
                    "PUT a b c d" eq_refl eq_refl) "a" "b" ["c"; "d"]).
    reflexivity.
Defined.

(** C6: the reply to ["GET <key>"] does not depend on the state in which
    the request is handled: whenever the same request is handled twice, in
    the same or in another state of the server, both calls return and both
    send the same reply. *)
Theorem get_reply_is_repeatable (w1 w2 : World) (self1 self2 s1 s2 i1 i2 : nat)
    (key : string) :
  Str.contains Str.space key = false →
  registered_impl w1 self1 = Some i1 →
  next_request w1 s1 = Some ("GET " +:+ key) →
  registered_impl w2 self2 = Some i2 →
  next_request w2 s2 = Some ("GET " +:+ key) →
  ∃ reply,
    (fst (Reactor.handle_message self1 s1 w1) = Ret tt
     ∧ replies (snd (Reactor.handle_message self1 s1 w1)) s1 = replies w1 s1 ++ [reply])
    ∧ (fst (Reactor.handle_message self2 s2 w2) = Ret tt
       ∧ replies (snd (Reactor.handle_message self2 s2 w2)) s2 = replies w2 s2 ++ [reply]).
Proof.
  intros Hkey Hi1 Hnext1 Hi2 Hnext2. exists key.
  pose proof (answered_get w1 self1 s1 i1 _ key [] Hi1 Hnext1 (split_get key Hkey))
    as (Hret1 & Hrep1 & _).
  pose proof (answered_get w2 self2 s2 i2 _ key [] Hi2 Hnext2 (split_get key Hkey))
    as (Hret2 & Hrep2 & _).
  auto.
Qed.

(** The same request twice in a row: the second call runs in the state
    that the first one leaves. *)
Lemma get_reply_is_repeatable_witness :
  let w1 := zmq.deliver 0 "GET a" (zmq.deliver 0 "GET a" started) in
  let w2 := snd (Reactor.handle_message 0 0 w1) in
  ∃ reply,
    (fst (Reactor.handle_message 0 0 w1) = Ret tt
     ∧ replies (snd (Reactor.handle_message 0 0 w1)) 0 = replies w1 0 ++ [reply])
    ∧ (fst (Reactor.handle_message 0 0 w2) = Ret tt
       ∧ replies (snd (Reactor.handle_message 0 0 w2)) 0 = replies w2 0 ++ [reply]).
Proof.
  intros w1 w2.
  apply (get_reply_is_repeatable w1 w2 0 0 0 0 0 0 "a"); vm_compute; reflexivity.
Defined.

(** ** Every outcome of [handle_message] *)

Lemma upcalls_on_app i t1 t2 : upcalls_on i t1 → upcalls_on i t2 → upcalls_on i (t1 ++ t2).
Proof. apply Forall_app_2. Qed.

(** A request that is received is answered after at most one upcall on the
    registered object, or stops at a missing token. *)
Lemma handle_message_cases w self s k msg rest i :
  sockets w !! s = Some k → reply_due k = false → inbox k = msg :: rest →
  registered_impl w self = Some i →
  (∃ calls reply,
     Reactor.handle_message self s w = (Ret tt, replied w s k msg rest calls reply)
     ∧ upcalls_on i calls)
  ∨ Reactor.handle_message self s w = (Raise IndexError, received w s k msg rest).
Proof.
  intros Hsock Hturn Hinbox Hi.
  destruct (Str.split Str.space msg) as [|verb args] eqn:Hparts;
    [by apply split_nonempty in Hparts|].
  destruct (decide (verb = "GET")) as [->|Hget].
  { destruct args as [|key extra].
    - right. by eapply handle_message_get_short.
    - left. exists [EvGet i key], key. split; [by eapply handle_message_get|].
      by repeat constructor. }
  destruct (decide (verb = "PUT")) as [->|Hput].
  { destruct args as [|key [|value extra]].
    - right. eapply handle_message_put_short; eauto; simpl; lia.
    - right. eapply handle_message_put_short; eauto; simpl; lia.
    - left. exists [EvPut i key value], "ack". split; [by eapply handle_message_put|].
      by repeat constructor. }
  left. exists [], "Sorry, unrecognized command".
  split; [by eapply handle_message_other|constructor].
Qed.

(** When nothing can be received the call stops in [recv_string] and the
    world is as before. *)
Lemma handle_message_no_request w self s :
  next_request w s = None →
  snd (Reactor.handle_message self s w) = w
  ∧ ∀ u, fst (Reactor.handle_message self s w) ≠ Ret u.
Proof.
  unfold next_request, Reactor.handle_message, mbind, M_bind, zmq.recv_string.
  destruct (sockets w !! s) as [k|]; [|done].
  destruct (reply_due k); [done|].
  destruct (inbox k); [done|discriminate].
Qed.

Lemma next_request_cases w s :
  next_request w s = None
  ∨ ∃ k msg rest, sockets w !! s = Some k ∧ reply_due k = false ∧ inbox k = msg :: rest.
Proof.
  destruct (next_request w s) as [msg|] eqn:Hnext; [right|by left].
  apply next_request_inv in Hnext as (k & rest & ?). eauto.
Qed.

(** [handle_message] leaves the reactors and the implementation objects as
    they are, and every upcall it makes is on the registered object. *)
Lemma handle_message_frame w self s i :
  registered_impl w self = Some i →
  reactors (snd (Reactor.handle_message self s w)) = reactors w
  ∧ impls (snd (Reactor.handle_message self s w)) = impls w
  ∧ ∃ new, trace (snd (Reactor.handle_message self s w)) = trace w ++ new
           ∧ upcalls_on i new.
Proof.
  intros Hi. destruct (next_request_cases w s) as [Hnone|(k & msg & rest & Hsock & Hturn & Hinbox)].
  - destruct (handle_message_no_request w self s Hnone) as [-> _].
    repeat split. exists []. rewrite app_nil_r. split; [done|constructor].
  - destruct (handle_message_cases w self s k msg rest i Hsock Hturn Hinbox Hi)
      as [(calls & reply & -> & Hcalls)| ->]; simpl; repeat split.
    + exists (EvRecv s msg :: calls ++ [EvSend s reply]). split; [done|].
      constructor; [done|]. apply upcalls_on_app; [done|]. by repeat constructor.
    + exists [EvRecv s msg]. split; [done|]. by repeat constructor.
Qed.

(** ** The loop *)

Lemma registered_impl_frame w w' self :
  reactors w' = reactors w → registered_impl w' self = registered_impl w self.
Proof. unfold registered_impl. by intros ->. Qed.

Lemma upcalls_on_nil w i : ∃ new, trace w = trace w ++ new ∧ upcalls_on i new.
Proof. exists []. rewrite app_nil_r. split; [done|constructor]. Qed.

(** One turn of the loop, up to the call of [handle_message]: the poll
    returns and the socket of the registered object is among the readable
    ones, or the turn ends without any effect. *)
Lemma event_loop_unfold fuel self w r i o :
  reactors w !! self = Some r → impl r = Some i → impls w !! i = Some o →
  Reactor.event_loop (S fuel) self w =
  match zmq.all_sockets (poller r) with
  | None => (Raise TypeError, w)
  | Some ss =>
      match filter (λ s, zmq.readable w s = true) ss with
      | [] => (Blocked, w)
      | ready =>
          match socket o with
          | Some s =>
              if bool_decide (s ∈ ready) then
                match Reactor.handle_message self s w with
                | (Ret _, w') => Reactor.event_loop fuel self w'
                | (Raise e, w') => (Raise e, w')
                | (Blocked, w') => (Blocked, w')
                | (OutOfFuel, w') => (OutOfFuel, w')
                end
              else Reactor.event_loop fuel self w
          | None => Reactor.event_loop fuel self w
          end
      end
  end.
Proof.
  intros Hr Hi Ho. simpl.
  unfold mbind, M_bind, Reactor.the_impl, Reactor.deref, ServerImpl.deref, zmq.poll, mbind, M_bind.
  rewrite Hr. destruct (zmq.all_sockets (poller r)) as [ss|]; [|done].
  destruct (filter _ ss) as [|s0 ready]; [done|].
  rewrite Hr, Hi; simpl. rewrite Ho.
  destruct (socket o) as [s|] eqn:Hs; [|done].
  destruct (bool_decide _); [|done].
  rewrite Hr, Hi; simpl. rewrite Ho, Hs.
  by destruct (Reactor.handle_message self s w) as [[[]| | |] w'].
Qed.

Lemma registered_impl_inv w self i :
  registered_impl w self = Some i →
  ∃ r, reactors w !! self = Some r ∧ impl r = Some i.
Proof.
  unfold registered_impl. destruct (reactors w !! self) as [r|]; [|done]. eauto.
Qed.

(** Whatever the loop does, its upcalls are on the registered object. *)
Lemma event_loop_upcalls fuel : ∀ w self i,
  registered_impl w self = Some i → is_Some (impls w !! i) →
  ∃ new, trace (snd (Reactor.event_loop fuel self w)) = trace w ++ new
         ∧ upcalls_on i new.
Proof.
  induction fuel as [|fuel IH]; intros w self i Hi [o Ho]; [apply upcalls_on_nil|].
  destruct (registered_impl_inv w self i Hi) as (r & Hr & Hri).
  rewrite (event_loop_unfold fuel self w r i o Hr Hri Ho).
  destruct (zmq.all_sockets (poller r)) as [ss|]; [|apply upcalls_on_nil].
  destruct (filter _ ss) as [|s0 ready]; [apply upcalls_on_nil|].
  destruct (socket o) as [s|]; [|by eapply IH].
  destruct (bool_decide _); [|by eapply IH].
  destruct (handle_message_frame w self s i Hi) as (Hreact & Himpls & new & Htrace & Hnew).
  destruct (Reactor.handle_message self s w) as [[[]| | |] w']; simpl in *; eauto.
  destruct (IH w' self i) as (new' & Htrace' & Hnew').
  - by rewrite (registered_impl_frame w w' self Hreact).
  - by rewrite Himpls.
  - exists (new ++ new'). rewrite Htrace', Htrace, app_assoc.
    split; [done|by apply upcalls_on_app].
Qed.

(** ** Registration *)

Lemma alter_Some {A} (f : A → A) (m : gmap nat A) i x :
  m !! i = Some x → alter f i m = <[i := f x]> m.
Proof.
  intros Hx. apply map_eq. intros j. destruct (decide (i = j)) as [->|Hne].
  - by rewrite lookup_alter_eq, lookup_insert_eq, Hx.
  - by rewrite lookup_alter_ne, lookup_insert_ne.
Qed.

Lemma register_run w self h r o :
  reactors w !! self = Some r → impls w !! h = Some o →
  Reactor.register self h w
  = (Ret tt,
     set_reactors <[self := mkReactor (context r) (zmq.register (poller r) (socket o)) (Some h)]> w).
Proof.
  intros Hr Ho.
  unfold Reactor.register, mbind, M_bind, modify, ServerImpl.deref; simpl.
  rewrite Ho. unfold set_reactors; simpl. do 2 f_equal.
  rewrite (alter_Some _ _ _ _ Hr).
  rewrite (alter_Some _ _ self (set_impl (Some h) r)) by apply lookup_insert_eq.
  by rewrite insert_insert_eq.
Qed.

Lemma since_app w w' new : trace w' = trace w ++ new → since w w' = new.
Proof. unfold since. intros ->. apply drop_app_length. Qed.

(** C7: the reactor keeps one implementation object.  After
    [register (h1)] and then [register (h2)] its [impl] is [h2], the first
    registration being replaced without any error, and from then on every
    upcall that [handle_message] or the loop makes is on [h2]. *)
Theorem second_registration_replaces_first (w : World) (self h1 h2 : nat)
    (r : ReactorObj) (o1 o2 : ServerImplObj) :
  reactors w !! self = Some r →
  impls w !! h1 = Some o1 →
  impls w !! h2 = Some o2 →
  let res := (Reactor.register self h1;; Reactor.register self h2) w in
  fst res = Ret tt
  ∧ registered_impl (snd res) self = Some h2
  ∧ (∀ s, upcalls_on h2 (since (snd res) (snd (Reactor.handle_message self s (snd res)))))
  ∧ (∀ fuel, upcalls_on h2 (since (snd res) (snd (Reactor.event_loop fuel self (snd res))))).
Proof.
  intros Hr Ho1 Ho2 res. subst res. unfold mbind, M_bind.
  rewrite (register_run w self h1 r o1 Hr Ho1).
  erewrite register_run; [|apply lookup_insert_eq|exact Ho2]. simpl.
  set (w' := set_reactors _ _).
  assert (Hi : registered_impl w' self = Some h2).
  { unfold registered_impl, w'; simpl. by rewrite lookup_insert_eq. }
  split; [done|]. split; [done|]. split.
  - intros s. destruct (handle_message_frame w' self s h2 Hi) as (_ & _ & new & Htrace & Hnew).
    by rewrite (since_app _ _ _ Htrace).
  - intros fuel. destruct (event_loop_upcalls fuel w' self h2 Hi) as (new & Htrace & Hnew).
    + unfold w'; simpl. by rewrite Ho2.
    + by rewrite (since_app _ _ _ Htrace).
Qed.

Lemma second_registration_replaces_first_witness :
  let res := (Reactor.register 0 0;; Reactor.register 0 1) two_impls in
  fst res = Ret tt
  ∧ registered_impl (snd res) 0 = Some 1
  ∧ (∀ s, upcalls_on 1 (since (snd res) (snd (Reactor.handle_message 0 s (snd res)))))
  ∧ (∀ fuel, upcalls_on 1 (since (snd res) (snd (Reactor.event_loop fuel 0 (snd res))))).
Proof.
  apply (second_registration_replaces_first two_impls 0 0 1
           (mkReactor ZmqContext [] None)
           (mkServerImpl "6000" (Some 0)) (mkServerImpl "6001" (Some 1)));
    vm_compute; reflexivity.
Defined.

(** ** The command line and the endpoint *)

Section Argparse.

Import argparse.

Variable parser : ArgumentParser.






Variable names : gset string.
Hypothesis dests : ∀ a, a ∈ parser → dest a ∈ names.



End Argparse.


(** [bind] creates a socket, stores it in the object and binds it to the
    address made of the port; the socket stays in the object when the
    address is refused. *)
Lemma bind_run w self ctx o :
  impls w !! self = Some o →
  ServerImpl.bind self ctx w =
  let s := alloc (sockets w) in
  let addr := "tcp://*:" +:+ port o in
  if bool_decide (addr ∈ unavailable w) then
    (Raise (ZMQError EADDRINUSE),
     mkWorld (<[s := zmq.fresh_socket]> (sockets w))
             (<[self := mkServerImpl (port o) (Some s)]> (impls w))
             (reactors w) (unavailable w) (trace w))
  else
    (Ret tt,
     mkWorld (<[s := mkSocket [addr] [] false []]> (sockets w))
             (<[self := mkServerImpl (port o) (Some s)]> (impls w))
             (reactors w) (addr :: unavailable w) (trace w)).
Proof.
  intros Ho.
  unfold ServerImpl.bind, mbind, M_bind, zmq.socket, modify, ServerImpl.deref, zmq.bind,
    set_impls, set_sockets; simpl.
  rewrite !(alter_Some _ _ _ _ Ho), lookup_insert_eq; simpl.
  rewrite lookup_insert_eq; simpl.
  destruct (bool_decide _); [done|].
  by rewrite insert_insert_eq.
Qed.

Lemma init_run args p w :
  args !! "port" = Some p →
  ServerImpl.__init__ args w
  = (Ret (alloc (impls w)), set_impls <[alloc (impls w) := mkServerImpl p None]> w).
Proof.
  intros Hp. unfold ServerImpl.__init__, argparse.attr, mbind, M_bind. by rewrite Hp.
Qed.




(** ** Requests one after the other *)

Lemma handle_message_reply w self s k msg rest i :
  sockets w !! s = Some k → reply_due k = false → inbox k = msg :: rest →
  registered_impl w self = Some i →
  match reply_of (Str.split Str.space msg) with
  | Some reply =>
      ∃ calls, Reactor.handle_message self s w = (Ret tt, replied w s k msg rest calls reply)
               ∧ length calls ≤ 1 ∧ Forall (λ e, is_upcall e = true) calls
  | None => Reactor.handle_message self s w = (Raise IndexError, received w s k msg rest)
  end.
Proof.
  intros Hsock Hturn Hinbox Hi. unfold reply_of.
  destruct (Str.split Str.space msg) as [|verb args] eqn:Hparts;
    [by apply split_nonempty in Hparts|].
  destruct (String.eqb_spec verb "GET") as [->|Hget].
  { destruct args as [|key extra]; simpl.
    - by eapply handle_message_get_short.
    - exists [EvGet i key]. split; [by eapply handle_message_get|].
      split; [done|by repeat constructor]. }
  destruct (String.eqb_spec verb "PUT") as [->|Hput].
  { destruct args as [|key [|value extra]].
    - eapply handle_message_put_short; eauto; simpl; lia.
    - eapply handle_message_put_short; eauto; simpl; lia.
    - exists [EvPut i key value]. split; [by eapply handle_message_put|].
      split; [done|by repeat constructor]. }
  exists []. split; [by eapply handle_message_other|]. split; [simpl; lia|constructor].
Qed.

Lemma serving_registered w self i s : serving w self i s → registered_impl w self = Some i.
Proof. intros [(r & Hr & Hi & _) _]. unfold registered_impl. by rewrite Hr. Qed.

Lemma serving_replied w self i s k msg rest calls reply :
  serving w self i s → serving (replied w s k msg rest calls reply) self i s.
Proof. by intros [Hr Ho]. Qed.

Lemma transfers_replied s msg calls reply :
  length calls ≤ 1 → Forall (λ e, is_upcall e = true) calls →
  transfers (EvRecv s msg :: calls ++ [EvSend s reply]) = [EvRecv s msg; EvSend s reply].
Proof.
  intros Hlen Hcalls. destruct calls as [|e [|e' calls]]; [done| |simpl in Hlen; lia].
  apply Forall_cons in Hcalls as [He _]. by destruct e.
Qed.

Lemma readable_pending w s k :
  sockets w !! s = Some k → reply_due k = false →
  zmq.readable w s = negb (bool_decide (inbox k = [])).
Proof. intros Hsock Hturn. unfold zmq.readable. by rewrite Hsock, Hturn. Qed.

Lemma ready_one w s k :
  sockets w !! s = Some k → reply_due k = false →
  filter (λ s0, zmq.readable w s0 = true) [s]
  = match inbox k with [] => [] | _ :: _ => [s] end.
Proof.
  intros Hsock Hturn. rewrite filter_cons, filter_nil.
  rewrite (readable_pending w s k Hsock Hturn).
  by destruct (inbox k).
Qed.

(** The requests that are pending on the socket are answered one by one,
    in their order, and the loop then waits in [poll]: as many replies as
    requests, each reply right after its request. *)
Lemma event_loop_serves msgs : ∀ rs w self i s k fuel,
  Forall2 (λ msg reply, reply_of (Str.split Str.space msg) = Some reply) msgs rs →
  serving w self i s →
  sockets w !! s = Some k → reply_due k = false → inbox k = msgs →
  length msgs < fuel →
  fst (Reactor.event_loop fuel self w) = Blocked
  ∧ replies (snd (Reactor.event_loop fuel self w)) s = replies w s ++ rs
  ∧ transfers (since w (snd (Reactor.event_loop fuel self w))) = alternation s msgs rs
  ∧ next_request (snd (Reactor.event_loop fuel self w)) s = None.
Proof.
  induction msgs as [|msg rest IH]; intros rs w self i s k fuel Hrs Hserving Hsock Hturn Hinbox Hfuel;
    destruct fuel as [|fuel]; try (simpl in Hfuel; lia);
    pose proof Hserving as [(r & Hr & Hi & Hpoller) (o & Ho & Hs)];
    rewrite (event_loop_unfold fuel self w r i o Hr Hi Ho), Hpoller; simpl;
    rewrite (ready_one w s k Hsock Hturn), Hinbox.
  - apply Forall2_nil_inv_l in Hrs as ->. simpl.
    unfold since, next_request. rewrite Hsock, Hturn, Hinbox, app_nil_r, drop_all. done.
  - apply Forall2_cons_inv_l in Hrs as (reply & rs' & Hreply & Hrs' & ->). simpl.
    rewrite Hs, bool_decide_true by apply list_elem_of_here.
    pose proof (handle_message_reply w self s k msg rest i Hsock Hturn Hinbox
                  (serving_registered _ _ _ _ Hserving)) as Hhm.
    rewrite Hreply in Hhm. destruct Hhm as (calls & -> & Hlen & Hcalls).
    set (w' := replied w s k msg rest calls reply).
    assert (Hserving' : serving w' self i s) by by apply serving_replied.
    assert (Hsock' : sockets w' !! s
                     = Some (mkSocket (endpoints k) rest false (sent k ++ [reply])))
      by apply lookup_insert_eq.
    assert (Hfuel' : length rest < fuel) by (simpl in Hfuel; lia).
    destruct (IH rs' w' self i s _ fuel Hrs' Hserving' Hsock' eq_refl eq_refl Hfuel')
      as (Hblocked & Hreplies & Htransfers & Hnext).
    destruct (event_loop_upcalls fuel w' self i (serving_registered _ _ _ _ Hserving'))
      as (new & Htrace & _); [by exists o|].
    split; [done|]. split; [|split; [|done]].
    + rewrite Hreplies. unfold w'. rewrite replies_replied by done.
      by rewrite <- app_assoc.
    + rewrite (since_app _ _ _ Htrace) in Htransfers.
      rewrite (since_app w _ ((EvRecv s msg :: calls ++ [EvSend s reply]) ++ new)).
      * unfold transfers in *. rewrite filter_app. fold (transfers (EvRecv s msg :: calls ++ [EvSend s reply])).
        rewrite transfers_replied by done. by rewrite Htransfers.
      * rewrite Htrace. unfold w'; simpl. by rewrite <- app_assoc.
Qed.

(** ** Requests that miss a token *)

(** C1: a [GET] without a key, a [PUT] without a key and a [PUT] without a
    value are received and then stop [handle_message] with [IndexError]
    at [parts[1]] or [parts[2]]; no reply is sent, not even the one for
    unrecognized commands, and the socket is left owing a reply. *)
Theorem missing_token_raises_index_error :
  Forall (λ msg,
    let res := Reactor.handle_message 0 0 (zmq.deliver 0 msg started) in
    fst res = Raise IndexError
    ∧ replies (snd res) 0 = []
    ∧ trace (snd res) = [EvRecv 0 msg]
    ∧ reply_due <$> sockets (snd res) !! 0 = Some true)
  ["GET"; "PUT"; "PUT k"].
Proof. repeat constructor. Qed.

(** C5: a request that misses a token is received and never answered, and
    the exception ends the loop: of the two requests ["GET"] and ["GET a"]
    the first is received, the second stays in the queue, and no reply is
    sent. *)
Theorem request_without_reply_stops_loop :
  let w := zmq.deliver 0 "GET a" (zmq.deliver 0 "GET" started) in
  let res := Reactor.event_loop 3 0 w in
  fst res = Raise IndexError
  ∧ replies (snd res) 0 = []
  ∧ transfers (since w (snd res)) = [EvRecv 0 "GET"]
  ∧ inbox <$> sockets (snd res) !! 0 = Some ["GET a"].
Proof. repeat split. Qed.

(** ** The scenarios of the specification *)

Example split_get_hello : Str.split Str.space "GET hello" = ["GET"; "hello"].
Proof. reflexivity. Qed.

Example split_keeps_empty_tokens : Str.split Str.space "a  b " = ["a"; ""; "b"; ""].
Proof. reflexivity. Qed.

Example scenario_get_hello :
  replies (snd (Reactor.event_loop 2 0 (zmq.deliver 0 "GET hello" started))) 0 = ["hello"].
Proof. reflexivity. Qed.

Example scenario_put_foo_bar :
  replies (snd (Reactor.event_loop 2 0 (zmq.deliver 0 "PUT foo bar" started))) 0 = ["ack"].
Proof. reflexivity. Qed.

Example scenario_delete_foo :
  replies (snd (Reactor.event_loop 2 0 (zmq.deliver 0 "DELETE foo" started))) 0
  = ["Sorry, unrecognized command"].
Proof. reflexivity. Qed.

Example scenario_get_then_put :
  let w := zmq.deliver 0 "PUT b c" (zmq.deliver 0 "GET a" started) in
  Reactor.event_loop 3 0 w
  = (Blocked,
     mkWorld {[0 := mkSocket ["tcp://*:5557"] [] false ["a"; "ack"]]}
             {[0 := mkServerImpl "5557" (Some 0)]}
             {[0 := mkReactor ZmqContext [Some 0] (Some 0)]}
             ["tcp://*:5557"]
             [EvRecv 0 "GET a"; EvGet 0 "a"; EvSend 0 "a";
              EvRecv 0 "PUT b c"; EvPut 0 "b" "c"; EvSend 0 "ack"]).
Proof. reflexivity. Qed.

Example port_in_use_is_fatal :
  fst (main 1 [] (boot ["tcp://*:5557"])) = Raise (ZMQError EADDRINUSE).
Proof. reflexivity. Qed.

Example port_from_command_line :
  endpoints <$> sockets (snd (main 1 ["--port"; "6000"] (boot []))) !! 0
  = Some ["tcp://*:6000"].
Proof. reflexivity. Qed.

(** ** The loop on a queue of requests *)

(** The requests at the head of the queue that can be answered are
    answered in order; the loop goes on with what remains of the queue. *)
Lemma event_loop_prefix good : ∀ rs w self i s k tail fuel,
  Forall2 (λ msg reply, reply_of (Str.split Str.space msg) = Some reply) good rs →
  serving w self i s →
  sockets w !! s = Some k → reply_due k = false → inbox k = good ++ tail →
  ∃ w' new,
    Reactor.event_loop (length good + fuel) self w = Reactor.event_loop fuel self w'
    ∧ serving w' self i s
    ∧ sockets w' !! s = Some (mkSocket (endpoints k) tail false (sent k ++ rs))
    ∧ trace w' = trace w ++ new
    ∧ transfers new = alternation s good rs.
Proof.
  induction good as [|msg good IH]; intros rs w self i s k tail fuel Hrs Hserving Hsock Hturn Hinbox.
  - apply Forall2_nil_inv_l in Hrs as ->. exists w, []. rewrite !app_nil_r.
    simpl in Hinbox. split; [done|]. split; [done|]. split; [|done].
    rewrite Hsock. destruct k; simpl in *. by subst.
  - apply Forall2_cons_inv_l in Hrs as (reply & rs' & Hreply & Hrs' & ->).
    pose proof Hserving as [(r & Hr & Hi & Hpoller) (o & Ho & Hs)].
    simpl length. simpl Nat.add.
    rewrite (event_loop_unfold _ self w r i o Hr Hi Ho), Hpoller; simpl.
    rewrite (ready_one w s k Hsock Hturn), Hinbox; simpl.
    rewrite Hs, bool_decide_true by apply list_elem_of_here.
    pose proof (handle_message_reply w self s k msg (good ++ tail) i Hsock Hturn Hinbox
                  (serving_registered _ _ _ _ Hserving)) as Hhm.
    rewrite Hreply in Hhm. destruct Hhm as (calls & -> & Hlen & Hcalls).
    set (w1 := replied w s k msg (good ++ tail) calls reply).
    assert (Hserving1 : serving w1 self i s) by by apply serving_replied.
    assert (Hsock1 : sockets w1 !! s
                     = Some (mkSocket (endpoints k) (good ++ tail) false (sent k ++ [reply])))
      by apply lookup_insert_eq.
    destruct (IH rs' w1 self i s _ tail fuel Hrs' Hserving1 Hsock1 eq_refl eq_refl)
      as (w' & new & Hrun & Hserving' & Hsock' & Htrace & Hnew).
    exists w', ((EvRecv s msg :: calls ++ [EvSend s reply]) ++ new).
    split; [done|]. split; [done|]. split; [|split].
    + rewrite Hsock'. simpl. by rewrite <- app_assoc.
    + rewrite Htrace. unfold w1; simpl. by rewrite <- app_assoc.
    + unfold transfers in *. rewrite filter_app.
      fold (transfers (EvRecv s msg :: calls ++ [EvSend s reply])).
      rewrite transfers_replied by done. by rewrite Hnew.
Qed.

(** X1: when every pending request can be answered, the loop answers them
    all, in their order, one reply right after each receive, and then
    waits in [poll]: as many replies as requests, none lost, none twice. *)
Theorem pending_requests_answered_in_order (msgs rs : list string) (w : World)
    (self i s : nat) (k : Socket) (fuel : nat) :
  Forall2 (λ msg reply, reply_of (Str.split Str.space msg) = Some reply) msgs rs →
  serving w self i s →
  sockets w !! s = Some k → reply_due k = false → inbox k = msgs →
  length msgs < fuel →
  fst (Reactor.event_loop fuel self w) = Blocked
  ∧ replies (snd (Reactor.event_loop fuel self w)) s = replies w s ++ rs
  ∧ length rs = length msgs
  ∧ transfers (since w (snd (Reactor.event_loop fuel self w))) = alternation s msgs rs
  ∧ next_request (snd (Reactor.event_loop fuel self w)) s = None.
Proof.
  intros Hrs Hserving Hsock Hturn Hinbox Hfuel.
  destruct (event_loop_serves msgs rs w self i s k fuel Hrs Hserving Hsock Hturn Hinbox Hfuel)
    as (Hblocked & Hreplies & Htransfers & Hnext).
  repeat split; try done. symmetry. by eapply Forall2_length.
Qed.

Lemma pending_requests_answered_in_order_witness :
  let w := zmq.deliver 0 "DELETE x" (zmq.deliver 0 "PUT b c" (zmq.deliver 0 "GET a" started)) in
  fst (Reactor.event_loop 4 0 w) = Blocked
  ∧ replies (snd (Reactor.event_loop 4 0 w)) 0
    = replies w 0 ++ ["a"; "ack"; "Sorry, unrecognized command"]
  ∧ length ["a"; "ack"; "Sorry, unrecognized command"]
    = length ["GET a"; "PUT b c"; "DELETE x"]
  ∧ transfers (since w (snd (Reactor.event_loop 4 0 w)))
    = alternation 0 ["GET a"; "PUT b c"; "DELETE x"]
        ["a"; "ack"; "Sorry, unrecognized command"]
  ∧ next_request (snd (Reactor.event_loop 4 0 w)) 0 = None.
Proof.
  intros w.
  apply (pending_requests_answered_in_order
           ["GET a"; "PUT b c"; "DELETE x"] ["a"; "ack"; "Sorry, unrecognized command"]
           w 0 0 0
           (mkSocket ["tcp://*:5557"] ["GET a"; "PUT b c"; "DELETE x"] false []) 4).
  - repeat constructor.
  - split; eexists; repeat split; reflexivity.
  - reflexivity.
  - reflexivity.
  - reflexivity.
  - simpl. lia.
Defined.

(** X2: one request that misses a token ends the loop.  The requests
    before it are answered in order; then the request is received,
    [IndexError] escapes from [event_loop], and the requests behind it
    stay in the queue of a socket that still owes a reply. *)
Theorem request_missing_token_ends_loop (good rs : list string) (bad : string)
    (rest : list string) (w : World) (self i s : nat) (k : Socket) (fuel : nat) :
  Forall2 (λ msg reply, reply_of (Str.split Str.space msg) = Some reply) good rs →
  reply_of (Str.split Str.space bad) = None →
  serving w self i s →
  sockets w !! s = Some k → reply_due k = false → inbox k = good ++ bad :: rest →
  length good < fuel →
  fst (Reactor.event_loop fuel self w) = Raise IndexError
  ∧ sockets (snd (Reactor.event_loop fuel self w)) !! s
    = Some (mkSocket (endpoints k) rest true (sent k ++ rs))
  ∧ transfers (since w (snd (Reactor.event_loop fuel self w)))
    = alternation s good rs ++ [EvRecv s bad].
Proof.
  intros Hrs Hbad Hserving Hsock Hturn Hinbox Hfuel.
  replace fuel with (length good + S (fuel - S (length good))) by lia.
  destruct (event_loop_prefix good rs w self i s k (bad :: rest)
              (S (fuel - S (length good))) Hrs Hserving Hsock Hturn Hinbox)
    as (w' & new & -> & Hserving' & Hsock' & Htrace & Hnew).
  pose proof Hserving' as [(r & Hr & Hi & Hpoller) (o & Ho & Hs)].
  rewrite (event_loop_unfold _ self w' r i o Hr Hi Ho), Hpoller; simpl.
  rewrite (ready_one w' s _ Hsock' eq_refl); simpl.
  rewrite Hs, bool_decide_true by apply list_elem_of_here.
  pose proof (handle_message_reply w' self s _ bad rest i Hsock' eq_refl eq_refl
                (serving_registered _ _ _ _ Hserving')) as Hhm.
  rewrite Hbad in Hhm. rewrite Hhm. simpl.
  split; [done|]. split; [apply lookup_insert_eq|].
  rewrite (since_app w _ (new ++ [EvRecv s bad])).
  - unfold transfers in *. rewrite filter_app, Hnew. done.
  - unfold received; simpl. rewrite Htrace. by rewrite <- app_assoc.
Qed.

Lemma request_missing_token_ends_loop_witness :
  let w := zmq.deliver 0 "GET b" (zmq.deliver 0 "PUT k" (zmq.deliver 0 "GET a" started)) in
  fst (Reactor.event_loop 2 0 w) = Raise IndexError
  ∧ sockets (snd (Reactor.event_loop 2 0 w)) !! 0
    = Some (mkSocket ["tcp://*:5557"] ["GET b"] true ([] ++ ["a"]))
  ∧ transfers (since w (snd (Reactor.event_loop 2 0 w)))
    = alternation 0 ["GET a"] ["a"] ++ [EvRecv 0 "PUT k"].
Proof.
  intros w.
  apply (request_missing_token_ends_loop ["GET a"] ["a"] "PUT k" ["GET b"] w 0 0 0
           (mkSocket ["tcp://*:5557"] ["GET a"; "PUT k"; "GET b"] false []) 2).
  - repeat constructor.
  - reflexivity.
  - split; eexists; repeat split; reflexivity.
  - reflexivity.
  - reflexivity.
  - reflexivity.
  - simpl. lia.
Defined.



(** ** Every request, every state *)




(** ** What [handle_message] leaves alone *)

Lemma only_socket_refl s w : only_socket s w w.
Proof. repeat split; try done. exists []. by rewrite app_nil_r. Qed.

Lemma only_socket_trans s w1 w2 w3 :
  only_socket s w1 w2 → only_socket s w2 w3 → only_socket s w1 w3.
Proof.
  intros (Hi1 & Hr1 & Hu1 & Ho1 & He1 & new1 & Ht1) (Hi2 & Hr2 & Hu2 & Ho2 & He2 & new2 & Ht2).
  repeat split; try congruence.
  - intros s' Hne. by rewrite Ho2, Ho1.
  - exists (new1 ++ new2). by rewrite Ht2, Ht1, app_assoc.
Qed.

Lemma bind_preserves {A B} (R : World → World → Prop) (m : M A) (f : A → M B) :
  (∀ w1 w2 w3, R w1 w2 → R w2 w3 → R w1 w3) →
  preserves R m → (∀ a, preserves R (f a)) → preserves R (m ≫= f).
Proof.
  intros Htrans Hm Hf w. specialize (Hm w). unfold mbind, M_bind.
  destruct (m w) as [[a| | |] w1]; simpl in *; [|done..].
  eapply Htrans; [exact Hm|apply Hf].
Qed.

Lemma log_only_socket s e w : only_socket s w (log e w).
Proof. repeat split; try done. by exists [e]. Qed.

Lemma recv_string_preserves s : preserves (only_socket s) (zmq.recv_string s).
Proof.
  intros w. unfold zmq.recv_string.
  destruct (sockets w !! s) as [k|] eqn:Hsock; [|apply only_socket_refl].
  destruct (reply_due k); [apply only_socket_refl|].
  destruct (inbox k) as [|msg rest]; [apply only_socket_refl|].
  unfold only_socket, log, set_sockets; simpl.
  repeat split; try done.
  - intros s' Hne. by apply lookup_insert_ne.
  - by rewrite lookup_insert_eq, Hsock.
  - by eexists.
Qed.

Lemma send_string_preserves s reply : preserves (only_socket s) (zmq.send_string s reply).
Proof.
  intros w. unfold zmq.send_string.
  destruct (sockets w !! s) as [k|] eqn:Hsock; [|apply only_socket_refl].
  destruct (reply_due k); [|apply only_socket_refl].
  unfold only_socket, log, set_sockets; simpl.
  repeat split; try done.
  - intros s' Hne. by apply lookup_insert_ne.
  - by rewrite lookup_insert_eq, Hsock.
  - by eexists.
Qed.

Lemma index_preserves {A} s (l : list A) n : preserves (only_socket s) (index l n).
Proof. intros w. unfold index. destruct (l !! n); apply only_socket_refl. Qed.

Lemma the_impl_preserves s self : preserves (only_socket s) (Reactor.the_impl self).
Proof.
  intros w. unfold Reactor.the_impl, Reactor.deref, mbind, M_bind.
  destruct (reactors w !! self) as [r|]; [|apply only_socket_refl].
  destruct (impl r); apply only_socket_refl.
Qed.

(** X5: however it ends, [handle_message] changes nothing but the queue,
    the turn and the replies of the socket it is given, and appends to
    the trace: the objects, the reactors, the bound addresses, the
    endpoints of the socket and every other socket stay as they are. *)
Theorem handle_message_touches_only_its_socket (w : World) (self s : nat) :
  only_socket s w (snd (Reactor.handle_message self s w)).
Proof.
  revert w. change (preserves (only_socket s) (Reactor.handle_message self s)).
  pose proof (only_socket_trans s) as Htrans.
  unfold Reactor.handle_message.
  apply bind_preserves; [done|apply recv_string_preserves|]. intros str.
  apply bind_preserves; [done|apply index_preserves|]. intros verb.
  destruct (String.eqb verb "GET").
  { apply bind_preserves; [done|apply the_impl_preserves|]. intros i.
    apply bind_preserves; [done|apply index_preserves|]. intros key.
    apply bind_preserves; [done| |intros ret; apply send_string_preserves].
    intros w. apply log_only_socket. }
  apply bind_preserves; [done|apply index_preserves|]. intros verb'.
  destruct (String.eqb verb' "PUT"); [|apply send_string_preserves].
  apply bind_preserves; [done|apply the_impl_preserves|]. intros i.
  apply bind_preserves; [done|apply index_preserves|]. intros key.
  apply bind_preserves; [done|apply index_preserves|]. intros value.
  apply bind_preserves; [done| |intros ret; apply send_string_preserves].
  intros w. apply log_only_socket.
Qed.

(** ** The events of the loop *)

Lemma handle_message_events w self s i :
  registered_impl w self = Some i →
  ∃ new, trace (snd (Reactor.handle_message self s w)) = trace w ++ new
         ∧ Forall (event_of i s) new.
Proof.
  intros Hi.
  destruct (next_request_cases w s) as [Hnone|(k & msg & rest & Hsock & Hturn & Hinbox)].
  { destruct (handle_message_no_request w self s Hnone) as [-> _].
    exists []. by rewrite app_nil_r. }
  destruct (Str.split Str.space msg) as [|verb args] eqn:Hparts;
    [by apply split_nonempty in Hparts|].
  destruct (decide (verb = "GET")) as [->|Hget].
  { destruct args as [|key extra].
    - rewrite (handle_message_get_short w self s k msg rest Hsock Hturn Hinbox i Hi Hparts).
      exists [EvRecv s msg]. split; [done|by repeat constructor].
    - rewrite (handle_message_get w self s k msg rest Hsock Hturn Hinbox i key extra Hi Hparts).
      eexists. split; [done|by repeat constructor]. }
  destruct (decide (verb = "PUT")) as [->|Hput].
  { destruct args as [|key [|value extra]].
    - rewrite (handle_message_put_short w self s k msg rest Hsock Hturn Hinbox i [] Hi Hparts)
        by (simpl; lia).
      exists [EvRecv s msg]. split; [done|by repeat constructor].
    - rewrite (handle_message_put_short w self s k msg rest Hsock Hturn Hinbox i [key] Hi Hparts)
        by (simpl; lia).
      exists [EvRecv s msg]. split; [done|by repeat constructor].
    - rewrite (handle_message_put w self s k msg rest Hsock Hturn Hinbox i key value extra
                 Hi Hparts).
      eexists. split; [done|by repeat constructor]. }
  rewrite (handle_message_other w self s k msg rest Hsock Hturn Hinbox verb args Hparts Hget Hput).
  eexists. split; [done|by repeat constructor].
Qed.

Lemma event_loop_events fuel : ∀ w self i s o,
  registered_impl w self = Some i → impls w !! i = Some o → socket o = Some s →
  ∃ new, trace (snd (Reactor.event_loop fuel self w)) = trace w ++ new
         ∧ Forall (event_of i s) new.
Proof.
  induction fuel as [|fuel IH]; intros w self i s o Hi Ho Hs.
  { exists []. by rewrite app_nil_r. }
  destruct (registered_impl_inv w self i Hi) as (r & Hr & Hri).
  rewrite (event_loop_unfold fuel self w r i o Hr Hri Ho), Hs.
  destruct (zmq.all_sockets (poller r)) as [ss|]; [|exists []; by rewrite app_nil_r].
  destruct (filter _ ss) as [|s0 ready]; [exists []; by rewrite app_nil_r|].
  destruct (bool_decide _); [|by eapply IH].
  destruct (handle_message_events w self s i Hi) as (new & Htrace & Hnew).
  destruct (handle_message_frame w self s i Hi) as (Hreact & Himpls & _).
  destruct (Reactor.handle_message self s w) as [[[]| | |] w']; simpl in *; eauto.
  destruct (IH w' self i s o) as (new' & Htrace' & Hnew'); [|by rewrite Himpls|done|].
  - by rewrite (registered_impl_frame w w' self Hreact).
  - exists (new ++ new'). rewrite Htrace', Htrace, app_assoc.
    split; [done|by apply Forall_app_2].
Qed.

(** X6: whatever arrives and however long the loop runs, it receives
    from and sends on the socket of the registered object only, and makes
    its upcalls on that object only. *)
Theorem loop_keeps_to_registered_object (fuel : nat) (w : World) (self i s : nat)
    (o : ServerImplObj) :
  registered_impl w self = Some i →
  impls w !! i = Some o →
  socket o = Some s →
  Forall (event_of i s) (since w (snd (Reactor.event_loop fuel self w))).
Proof.
  intros Hi Ho Hs.
  destruct (event_loop_events fuel w self i s o Hi Ho Hs) as (new & Htrace & Hnew).
  by rewrite (since_app _ _ _ Htrace).
Qed.

Lemma loop_keeps_to_registered_object_witness :
  let w := zmq.deliver 1 "GET b" (zmq.deliver 0 "GET a"
             (snd ((Reactor.register 0 0;; Reactor.register 0 1) two_impls))) in
  Forall (event_of 1 1) (since w (snd (Reactor.event_loop 4 0 w))).
Proof.
  intros w.
  apply (loop_keeps_to_registered_object 4 w 0 1 1 (mkServerImpl "6001" (Some 1)));
    reflexivity.
Defined.

(** ** A request for an object that is no longer registered *)

Lemma all_sockets_elem poller ss s :
  zmq.all_sockets poller = Some ss → Some s ∈ poller → s ∈ ss.
Proof.
  revert ss. induction poller as [|[s0|] poller IH]; intros ss; simpl; [by intros _ ?%elem_of_nil| |done].
  destruct (zmq.all_sockets poller) as [ss0|]; [|done]. simpl. intros [= <-].
  intros [[= ->]|Hin]%elem_of_cons; [apply list_elem_of_here|].
  apply list_elem_of_further. by apply IH.
Qed.

(** While a request waits on a socket that the reactor polls but that is
    not the socket of the registered object, and that object has no
    request of its own, a turn of the loop changes nothing. *)
Lemma event_loop_spins fuel w self r i o s s' ss :
  reactors w !! self = Some r → impl r = Some i →
  impls w !! i = Some o → socket o = Some s →
  zmq.all_sockets (poller r) = Some ss → s' ∈ ss →
  zmq.readable w s' = true → zmq.readable w s = false →
  Reactor.event_loop fuel self w = (OutOfFuel, w).
Proof.
  intros Hr Hi Ho Hs Hss Hin Hready' Hready.
  induction fuel as [|fuel IH]; [done|].
  rewrite (event_loop_unfold fuel self w r i o Hr Hi Ho), Hss, Hs.
  destruct (filter _ ss) as [|s0 ready] eqn:Hfilter.
  { assert (s' ∈ filter (λ s0, zmq.readable w s0 = true) ss) as Hs'
      by by apply list_elem_of_filter.
    rewrite Hfilter in Hs'. by apply elem_of_nil in Hs'. }
  rewrite bool_decide_false; [exact IH|].
  rewrite <- Hfilter. intros [Hr' _]%list_elem_of_filter. congruence.
Qed.

Lemma all_sockets_app poller s :
  zmq.all_sockets (poller ++ [Some s]) = (λ ss, ss ++ [s]) <$> zmq.all_sockets poller.
Proof.
  induction poller as [|[s0|] poller IH]; simpl; [done| |done].
  rewrite IH. by destruct (zmq.all_sockets poller).
Qed.

Lemma all_sockets_register poller ss s :
  zmq.all_sockets poller = Some ss →
  ∃ ss', zmq.all_sockets (zmq.register poller (Some s)) = Some ss'.
Proof.
  intros Hss. unfold zmq.register. case_bool_decide; [eauto|].
  rewrite all_sockets_app, Hss. eauto.
Qed.

Lemma register_elem poller s : Some s ∈ zmq.register poller (Some s).
Proof.
  unfold zmq.register. case_bool_decide; [done|].
  apply elem_of_app. right. apply list_elem_of_here.
Qed.

Lemma register_keeps poller s x : x ∈ poller → x ∈ zmq.register poller s.
Proof.
  unfold zmq.register. case_bool_decide; [done|]. intros ?. apply elem_of_app. by left.
Qed.

Lemma readable_next_request w s :
  zmq.readable w s = match next_request w s with Some _ => true | None => false end.
Proof.
  unfold zmq.readable, next_request. destruct (sockets w !! s) as [k|]; [|done].
  destruct (reply_due k); [done|]. by destruct (inbox k).
Qed.

(** X7: [register] never takes a socket out of the poller.  After
    [register (h1)] and [register (h2)], a request that waits on the socket
    of [h1] while [h2] has none is never received: [poll] returns at once
    on every turn, the loop says that the message is not on its socket and
    polls again, for ever, without waiting and without any event. *)
Theorem replaced_object_is_never_served (w : World) (self h1 h2 : nat)
    (r : ReactorObj) (ss : list nat) (o1 o2 : ServerImplObj) (s1 s2 : nat)
    (msg : string) (fuel : nat) :
  reactors w !! self = Some r →
  zmq.all_sockets (poller r) = Some ss →
  impls w !! h1 = Some o1 → socket o1 = Some s1 →
  impls w !! h2 = Some o2 → socket o2 = Some s2 →
  next_request w s1 = Some msg →
  next_request w s2 = None →
  let w' := snd ((Reactor.register self h1;; Reactor.register self h2) w) in
  Reactor.event_loop fuel self w' = (OutOfFuel, w')
  ∧ next_request w' s1 = Some msg.
Proof.
  intros Hr Hss Ho1 Hs1 Ho2 Hs2 Hmsg Hnone w'. subst w'. unfold mbind, M_bind.
  rewrite (register_run w self h1 r o1 Hr Ho1).
  erewrite register_run; [|apply lookup_insert_eq|exact Ho2]. simpl.
  rewrite Hs1, Hs2. set (w' := set_reactors _ _).
  split; [|done].
  destruct (all_sockets_register _ ss s1 Hss) as (ss1 & Hss1).
  destruct (all_sockets_register _ ss1 s2 Hss1) as (ss2 & Hss2).
  eapply (event_loop_spins fuel w' self _ h2 o2 s2 s1 ss2).
  - unfold w'; simpl. apply lookup_insert_eq.
  - done.
  - done.
  - done.
  - exact Hss2.
  - eapply all_sockets_elem; [exact Hss2|]. apply register_keeps, register_elem.
  - rewrite readable_next_request. change (next_request w' s1) with (next_request w s1).
    by rewrite Hmsg.
  - rewrite readable_next_request. change (next_request w' s2) with (next_request w s2).
    by rewrite Hnone.
Qed.

Lemma replaced_object_is_never_served_witness :
  let w := zmq.deliver 0 "GET a" two_impls in
  let w' := snd ((Reactor.register 0 0;; Reactor.register 0 1) w) in
  Reactor.event_loop 7 0 w' = (OutOfFuel, w')
  ∧ next_request w' 0 = Some "GET a".
Proof.
  intros w.
  apply (replaced_object_is_never_served w 0 0 1 (mkReactor ZmqContext [] None) []
           (mkServerImpl "6000" (Some 0)) (mkServerImpl "6001" (Some 1)) 0 1 "GET a" 7);
    reflexivity.
Defined.

(** ** Start-up *)

Lemma parse_args_world parser argv w : snd (argparse.parse_args parser argv w) = w.
Proof.
  unfold argparse.parse_args. destruct (existsb _ _); [done|].
  by destruct (argparse.consume _ _ _ _).
Qed.

Lemma register_first s : zmq.register [] (Some s) = [Some s].
Proof. unfold zmq.register. by rewrite bool_decide_false by apply not_elem_of_nil. Qed.

(** [main] from the parsed arguments on: the reactor, the object and the
    socket are created, the socket is bound if its address is free, the
    object is registered and the loop waits for the first request. *)
Lemma main_run fuel argv w ns p :
  fst (parseCmdLineArgs argv w) = Ret ns →
  ns !! "port" = Some p →
  main (S fuel) argv w =
  let self := alloc (reactors w) in
  let i := alloc (impls w) in
  let s := alloc (sockets w) in
  let addr := "tcp://*:" +:+ p in
  if bool_decide (addr ∈ unavailable w) then
    (Raise (ZMQError EADDRINUSE),
     mkWorld (<[s := zmq.fresh_socket]> (sockets w))
             (<[i := mkServerImpl p (Some s)]> (impls w))
             (<[self := mkReactor ZmqContext [] None]> (reactors w))
             (unavailable w) (trace w))
  else
    (Blocked,
     mkWorld (<[s := mkSocket [addr] [] false []]> (sockets w))
             (<[i := mkServerImpl p (Some s)]> (impls w))
             (<[self := mkReactor ZmqContext [Some s] (Some i)]> (reactors w))
             (addr :: unavailable w) (trace w)).
Proof.
  intros Hparse Hp. unfold main.
  unfold mbind at 1, M_bind at 1.
  pose proof (parse_args_world (argparse.add_argument [] "-p" "--port" "5557") argv w) as Hw.
  fold (parseCmdLineArgs argv) in Hw.
  destruct (parseCmdLineArgs argv w) as [out w0]. simpl in Hparse, Hw. subst out w0.
  unfold mbind at 1, M_bind at 1. unfold Reactor.__init__ at 1.
  unfold mbind at 1, M_bind at 1. rewrite (init_run ns p _ Hp).
  unfold mbind at 1, M_bind at 1. unfold Reactor.deref at 1. simpl reactors.
  rewrite lookup_insert_eq.
  unfold mbind at 1, M_bind at 1.
  rewrite (bind_run _ _ _ (mkServerImpl p None)) by apply lookup_insert_eq.
  cbv zeta. unfold set_impls, set_reactors.
  cbn [impls sockets reactors unavailable trace].
  rewrite insert_insert_eq.
  destruct (bool_decide _); [done|].
  unfold mbind at 1, M_bind at 1.
  erewrite register_run; [|apply lookup_insert_eq|apply lookup_insert_eq].
  unfold set_reactors. cbn [impls sockets reactors unavailable trace context poller socket].
  rewrite register_first, insert_insert_eq.
  erewrite event_loop_unfold; [|apply lookup_insert_eq|done|apply lookup_insert_eq].
  cbn [poller zmq.all_sockets fmap option_fmap option_map].
  erewrite ready_one; [|apply lookup_insert_eq|done]. done.
Qed.

(** X8: started on a port whose address is free, [main] creates one
    reactor, one object and one socket, binds the socket to
    ["tcp://*:<port>"], registers the object and waits in [poll]: the
    server is in its serving state, has received and sent nothing, and
    the address is now taken. *)
Theorem main_waits_on_free_port (fuel : nat) (argv : list string) (w : World)
    (ns : gmap string string) (p : string) :
  fst (parseCmdLineArgs argv w) = Ret ns →
  ns !! "port" = Some p →
  "tcp://*:" +:+ p ∉ unavailable w →
  let res := main (S fuel) argv w in
  let s := alloc (sockets w) in
  fst res = Blocked
  ∧ serving (snd res) (alloc (reactors w)) (alloc (impls w)) s
  ∧ sockets (snd res) !! s = Some (mkSocket ["tcp://*:" +:+ p] [] false [])
  ∧ "tcp://*:" +:+ p ∈ unavailable (snd res)
  ∧ trace (snd res) = trace w.
Proof.
  intros Hparse Hp Hfree res s. subst res s.
  rewrite (main_run fuel argv w ns p Hparse Hp). cbv zeta.
  rewrite bool_decide_false by done. simpl.
  split; [done|]. split; [|split; [apply lookup_insert_eq|split; [apply list_elem_of_here|done]]].
  split.
  - eexists. split; [apply lookup_insert_eq|done].
  - eexists. split; [apply lookup_insert_eq|done].
Qed.

Lemma main_waits_on_free_port_witness :
  let res := main 1 ["--port"; "6000"] (boot ["tcp://*:5557"]) in
  let s := alloc (sockets (boot ["tcp://*:5557"])) in
  fst res = Blocked
  ∧ serving (snd res) (alloc (reactors (boot ["tcp://*:5557"])))
      (alloc (impls (boot ["tcp://*:5557"]))) s
  ∧ sockets (snd res) !! s = Some (mkSocket ["tcp://*:" +:+ "6000"] [] false [])
  ∧ "tcp://*:" +:+ "6000" ∈ unavailable (snd res)
  ∧ trace (snd res) = trace (boot ["tcp://*:5557"]).
Proof.
  apply (main_waits_on_free_port 0 ["--port"; "6000"] (boot ["tcp://*:5557"])
           {["port" := "6000"]} "6000"); [reflexivity..|].
  simpl. intros [[=]|[]%elem_of_nil]%elem_of_cons.
Defined.

(** X9: started on a port whose address is taken, [main] stops in [bind]
    with the error of the transport before anything is registered: the
    reactor has no object and polls no socket, so no request is ever
    received, while the object already holds its new, unbound socket. *)
Theorem main_stops_on_taken_port (fuel : nat) (argv : list string) (w : World)
    (ns : gmap string string) (p : string) :
  fst (parseCmdLineArgs argv w) = Ret ns →
  ns !! "port" = Some p →
  "tcp://*:" +:+ p ∈ unavailable w →
  let res := main (S fuel) argv w in
  fst res = Raise (ZMQError EADDRINUSE)
  ∧ reactors (snd res) !! alloc (reactors w) = Some (mkReactor ZmqContext [] None)
  ∧ impls (snd res) !! alloc (impls w)
    = Some (mkServerImpl p (Some (alloc (sockets w))))
  ∧ sockets (snd res) !! alloc (sockets w) = Some (mkSocket [] [] false [])
  ∧ unavailable (snd res) = unavailable w
  ∧ trace (snd res) = trace w.
Proof.
  intros Hparse Hp Htaken res. subst res.
  rewrite (main_run fuel argv w ns p Hparse Hp). cbv zeta.
  rewrite bool_decide_true by done. simpl.
  by rewrite !lookup_insert_eq.
Qed.

Lemma main_stops_on_taken_port_witness :
  let w := boot ["tcp://*:5557"] in
  let res := main 1 [] w in
  fst res = Raise (ZMQError EADDRINUSE)
  ∧ reactors (snd res) !! alloc (reactors w) = Some (mkReactor ZmqContext [] None)
  ∧ impls (snd res) !! alloc (impls w)
    = Some (mkServerImpl "5557" (Some (alloc (sockets w))))
  ∧ sockets (snd res) !! alloc (sockets w) = Some (mkSocket [] [] false [])
  ∧ unavailable (snd res) = unavailable w
  ∧ trace (snd res) = trace w.
Proof.
  intros w.
  apply (main_stops_on_taken_port 0 [] w {["port" := "5557"]} "5557"); [reflexivity..|].
  apply list_elem_of_here.
Defined.

(** ** The loop never returns *)

Lemma bind_never_returns {A B} (m : M A) (f : A → M B) :
  (∀ a w b, fst (f a w) ≠ Ret b) → ∀ w b, fst ((m ≫= f) w) ≠ Ret b.
Proof.
  intros Hf w b. unfold mbind, M_bind.
  destruct (m w) as [[a| | |] w']; simpl; [apply Hf|done..].
Qed.

Lemma event_loop_never_returns fuel : ∀ self w u,
  fst (Reactor.event_loop fuel self w) ≠ Ret u.
Proof.
  induction fuel as [|fuel IH]; intros self; [done|]. simpl.
  do 5 (apply bind_never_returns; intros ?). apply IH.
Qed.

(** X10: [event_loop] and [main] never return: whatever the command
    line, the state and the requests, [main] ends by an exception (of the
    command line, of [bind] or of a request) or goes on polling. *)
Theorem main_never_returns (fuel : nat) (argv : list string) (self : nat) (w : World)
    (u : unit) :
  fst (main fuel argv w) ≠ Ret u
  ∧ fst (Reactor.event_loop fuel self w) ≠ Ret u.
Proof.
  split; [|apply event_loop_never_returns].
  revert w u. unfold main.
  do 6 (apply bind_never_returns; intros ?). apply event_loop_never_returns.
Qed.

(** ** Tokens *)

(** X11: every space separates two tokens, so empty tokens count.  After
    ["GET"] and two spaces the key is the empty string: the reply is
    empty whatever follows.  A message that begins with a space has the
    empty string as its verb and gets the reply for unrecognized
    commands, even when ["GET"] or ["PUT"] follows the space. *)
Theorem empty_tokens_count (w : World) (self s i : nat) (msg : string) :
  registered_impl w self = Some i →
  next_request w s = Some msg →
  (∀ rest, msg = "GET  " +:+ rest →
     answered w s msg [EvGet i ""] "" (Reactor.handle_message self s w))
  ∧ (∀ rest, msg = " " +:+ rest →
       answered w s msg [] "Sorry, unrecognized command" (Reactor.handle_message self s w)).
Proof.
  intros Hi Hnext. split; intros rest ->.
  - eapply answered_get; [done..|]. reflexivity.
  - eapply (answered_other _ _ _ _ ""); [done|reflexivity|done..].
Qed.

Lemma empty_tokens_count_witness :
  answered (zmq.deliver 0 "GET  a" started) 0 "GET  a" [EvGet 0 ""] ""
    (Reactor.handle_message 0 0 (zmq.deliver 0 "GET  a" started))
  ∧ answered (zmq.deliver 0 " GET a" started) 0 " GET a" [] "Sorry, unrecognized command"
      (Reactor.handle_message 0 0 (zmq.deliver 0 " GET a" started)).
Proof.
  split.
  - apply (proj1 (empty_tokens_count (zmq.deliver 0 "GET  a" started) 0 0 0 "GET  a"
                    eq_refl eq_refl) "a").
    reflexivity.
  - apply (proj2 (empty_tokens_count (zmq.deliver 0 " GET a" started) 0 0 0 " GET a"
                    eq_refl eq_refl) "GET a").
    reflexivity.
Defined.

(** X12: [put] stores nothing.  A ["PUT <key> <value>"] followed by a
    ["GET <key>"] is answered by ["ack"] and then by the key itself,
    whatever the value was. *)
Theorem put_then_get_replies_key (w : World) (self i s : nat) (k : Socket)
    (key value : string) (fuel : nat) :
  Str.contains Str.space key = false →
  Str.contains Str.space value = false →
  serving w self i s →
  sockets w !! s = Some k → reply_due k = false →
  inbox k = ["PUT " +:+ key +:+ " " +:+ value; "GET " +:+ key] →
  2 < fuel →
  fst (Reactor.event_loop fuel self w) = Blocked
  ∧ replies (snd (Reactor.event_loop fuel self w)) s = replies w s ++ ["ack"; key].
Proof.
  intros Hkey Hvalue Hserving Hsock Hturn Hinbox Hfuel.
  destruct (event_loop_serves (inbox k) ["ack"; key] w self i s k fuel)
    as (Hblocked & Hreplies & _); try done.
  - rewrite Hinbox. constructor; [by rewrite split_put|].
    constructor; [by rewrite split_get|constructor].
  - rewrite Hinbox. simpl. lia.
Qed.

Lemma put_then_get_replies_key_witness :
  let w := zmq.deliver 0 "GET foo" (zmq.deliver 0 "PUT foo bar" started) in
  fst (Reactor.event_loop 3 0 w) = Blocked
  ∧ replies (snd (Reactor.event_loop 3 0 w)) 0 = replies w 0 ++ ["ack"; "foo"].
Proof.
  intros w.
  apply (put_then_get_replies_key w 0 0 0
           (mkSocket ["tcp://*:5557"] ["PUT foo bar"; "GET foo"] false []) "foo" "bar" 3).
  - reflexivity.
  - reflexivity.
  - split; eexists; repeat split; reflexivity.
  - reflexivity.
  - reflexivity.
  - reflexivity.
  - lia.
Defined.

(** ** The port option *)

Lemma plain_not_separator v : plain v = true → String.eqb v "--" = false.
Proof.
  destruct v as [|c v]; [done|]. unfold plain. intros Hc%negb_true_iff.
  cbn [String.eqb]. by rewrite Hc.
Qed.

Lemma plain_positional parser v :
  plain v = true → argparse.parse_optional parser v = argparse.Positional.
Proof.
  destruct v as [|c v]; [done|]. unfold plain, argparse.parse_optional. by intros ->.
Qed.

(** X13: the port is set by [-p <value>], by [--port <value>] and by
    [--port=<value>].  The value replaces the default, and it is a plain
    string: nothing checks that it is a number. *)
Theorem port_option_sets_port (v : string) (w : World) :
  plain v = true →
  parseCmdLineArgs ["-p"; v] w = (Ret {["port" := v]}, w)
  ∧ parseCmdLineArgs ["--port"; v] w = (Ret {["port" := v]}, w)
  ∧ parseCmdLineArgs ["--port=" +:+ v] w = (Ret {["port" := v]}, w).
Proof.
  intros Hv.
  assert (Hns : <["port" := v]> ({["port" := "5557"]} : gmap string string) = {["port" := v]})
    by apply insert_singleton_eq.
  unfold parseCmdLineArgs, argparse.parse_args. simpl.
  unfold argparse.is_ambiguous, argparse.is_positional.
  rewrite !(plain_positional _ v Hv), (plain_not_separator v Hv). simpl.
  rewrite !(plain_positional _ v Hv). simpl.
  unfold argparse.defaults, mret, M_ret; simpl. by rewrite insert_empty, Hns.
Qed.

Lemma port_option_sets_port_witness :
  parseCmdLineArgs ["-p"; "6000"] (boot []) = (Ret {["port" := "6000"]}, boot [])
  ∧ parseCmdLineArgs ["--port"; "6000"] (boot []) = (Ret {["port" := "6000"]}, boot [])
  ∧ parseCmdLineArgs ["--port=" +:+ "6000"] (boot []) = (Ret {["port" := "6000"]}, boot []).
Proof.
  apply (port_option_sets_port "6000" (boot [])). reflexivity.
Defined.

(** ** Binding again *)


